(** * The session-document parser of node-iracing-sdk

    A shallow embedding of the indentation-driven parser in
    [packages/runtime/src/addon.cpp] ([SplitLines], [Trim],
    [LeadingIndent], [PeekNextLine], [TryParseInt64], [TryParseDouble],
    [ParseScalarToJs], [AppendToArray], [SetObjectProperty] and
    [ParseSessionYamlToJs]) together with the properties of it that the
    specification states.

    Conventions of the model.
    - A [std::string] is a [string]; characters are bytes ([ascii]).
    - [const char* session] is the memory the pointer designates: reading
      stops at the first NUL byte, as the loop condition [*ptr] does.
    - A [napi_value] is a [JsValue]: primitives are carried by value,
      objects and arrays are handles into the store of the JavaScript
      engine ([Heap]); the parser mutates containers through their handles
      after it has linked them into their parent, and the store keeps that
      sharing.
    - The N-API constructors ([napi_create_object], [napi_create_array],
      [napi_create_string_utf8], ...) are taken to succeed: running out of
      memory in the engine is outside the model.  The two mutating calls
      fail exactly when the handle they receive does not designate a
      container of the right sort; such a failure is the [nullptr] return
      of the C++ code and is [None] here.
    - A JavaScript string is identified with the bytes it was made from,
      and [napi_set_property] with the definition or update of an own
      property, kept in the order of first definition.  The engine does
      so for the names that [plain_key] accepts (ASCII, not [__proto__],
      not made of digits only); names it treats in a way of its own are
      not told apart from the others, and the statements that say which
      entries the tree holds under which key are made for plain keys.
    - [int indent] is a [Z]: a line would need 2^31 leading blanks for the
      C++ counter to leave its range. *)

From Stdlib Require Import ZArith Ascii String List Lia Bool.
From Stdlib.Floats Require Import SpecFloat.
From stdpp Require Import base option list strings.

Local Open Scope string_scope.
Local Open Scope Z_scope.

(** ** Characters and [std::string] operations *)

Module Str.

Definition NUL : ascii := "000"%char.
Definition TAB : ascii := "009"%char.
Definition LF : ascii := "010"%char.
Definition CR : ascii := "013"%char.
Definition SPACE : ascii := " "%char.
Definition DQUOTE : ascii := "034"%char.

(** [std::isspace] in the "C" locale: space, and the controls 9 to 13. *)
Definition isspace (c : ascii) : bool :=
  let n := nat_of_ascii c in
  ((n =? 32) || ((9 <=? n) && (n <=? 13)))%nat.

Definition isdigit (c : ascii) : bool :=
  let n := nat_of_ascii c in
  ((48 <=? n) && (n <=? 57))%nat.

(** [value.empty()] *)
Definition empty (value : string) : bool :=
  match value with
  | EmptyString => true
  | String _ _ => false
  end.

(** [value.size()] *)
Definition size (value : string) : nat := String.length value.

(** [value[i]]; every use in the parser is in range, the default is
    what reading the terminator of [c_str()] gives. *)
Fixpoint at_ (value : string) (i : nat) : ascii :=
  match value, i with
  | EmptyString, _ => NUL
  | String c _, O => c
  | String _ rest, S j => at_ rest j
  end.

(** [value.substr(pos)] *)
Fixpoint substr_from (pos : nat) (value : string) : string :=
  match pos, value with
  | O, _ => value
  | S p, String _ rest => substr_from p rest
  | S _, EmptyString => EmptyString
  end.

Fixpoint prefix (n : nat) (value : string) : string :=
  match n, value with
  | S m, String c rest => String c (prefix m rest)
  | _, _ => EmptyString
  end.

(** [value.substr(pos, n)]: the count is clipped at the end of the
    string.  ([pos > size()] would throw; no call of the parser can
    reach that.) *)
Definition substr (pos n : nat) (value : string) : string :=
  prefix n (substr_from pos value).

(** [value.find(ch)], [None] for [npos]. *)
Fixpoint find (ch : ascii) (value : string) : option nat :=
  match value with
  | EmptyString => None
  | String c rest =>
      if Ascii.eqb c ch then Some O else S <$> find ch rest
  end.

(** [value.front()] and [value.back()] of a non-empty string. *)
Definition front (value : string) : ascii := at_ value 0.
Definition back (value : string) : ascii := at_ value (size value - 1).

End Str.

(** ** [Trim], [LeadingIndent], [SplitLines], [PeekNextLine] *)

(** The first loop of [Trim]: the index of the first character that is
    not white space, [size()] when there is none. *)
Fixpoint trim_start (value : string) : nat :=
  match value with
  | String c rest => if Str.isspace c then S (trim_start rest) else O
  | EmptyString => O
  end.

(** The second loop of [Trim]:
    [while (end > start && isspace(value[end - 1])) end -= 1]. *)
Fixpoint trim_end (value : string) (start end_ : nat) : nat :=
  match end_ with
  | O => O
  | S e =>
      if (start <? end_)%nat && Str.isspace (Str.at_ value e)
      then trim_end value start e
      else end_
  end.

Definition Trim (value : string) : string :=
  let start := trim_start value in
  if (start =? Str.size value)%nat then EmptyString
  else
    let end_ := trim_end value start (Str.size value) in
    Str.substr start (end_ - start) value.

Fixpoint LeadingIndent (value : string) : Z :=
  match value with
  | String c rest =>
      if Ascii.eqb c Str.SPACE || Ascii.eqb c Str.TAB
      then LeadingIndent rest + 1
      else 0
  | EmptyString => 0
  end.

(** The loop of [SplitLines]; [current] is the line being accumulated
    and the result is what is pushed onto [lines], in order. *)
Fixpoint split_loop (text : string) (current : string) : list string :=
  match text with
  | EmptyString => [current]
  | String ch ptr =>
      if Ascii.eqb ch Str.NUL then [current]
      else if Ascii.eqb ch Str.CR then split_loop ptr current
      else if Ascii.eqb ch Str.LF then current :: split_loop ptr EmptyString
      else split_loop ptr (current ++ String ch EmptyString)
  end.

Definition SplitLines (text : string) : list string :=
  split_loop text EmptyString.

(** The field [indent] of the C++ struct is [next_indent] here, the name
    [indent] being that of the field of [Context]. *)
Record NextLineInfo := MkNextLineInfo {
  found : bool;
  next_indent : Z;
  starts_with_dash : bool
}.

Definition starts_with (ch : ascii) (value : string) : bool :=
  negb (Str.empty value) && Ascii.eqb (Str.at_ value 0) ch.

Fixpoint peek_loop (rest : list string) : NextLineInfo :=
  match rest with
  | [] => MkNextLineInfo false 0 false
  | line :: rest' =>
      let trimmed := Trim line in
      if negb (Str.empty trimmed)
      then MkNextLineInfo true (LeadingIndent line) (starts_with "-" trimmed)
      else peek_loop rest'
  end.

(** [PeekNextLine(lines, start)]: the scan runs over [lines[start..]]. *)
Definition PeekNextLine (lines : list string) (start : nat) : NextLineInfo :=
  peek_loop (drop start lines).

(** ** Numeric conversions *)

Definition LLONG_MAX : Z := 9223372036854775807.
Definition LLONG_MIN : Z := -9223372036854775808.

(** What a call of [strtoll] leaves behind: the returned value, the
    offset of [end] from the start of the text, and whether [errno] is
    [ERANGE] afterwards. *)
Record strtoll_result := MkStrtoll {
  ll_parsed : Z;
  ll_end : nat;
  ll_erange : bool
}.

Definition digit_value (c : ascii) : Z := Z.of_nat (nat_of_ascii c) - 48.

(** The longest run of decimal digits at the head of [s]: its value
    (continuing from [acc]) and its length. *)
Fixpoint scan_digits (acc : Z) (s : string) : Z * nat :=
  match s with
  | String c rest =>
      if Str.isdigit c
      then let '(v, n) := scan_digits (acc * 10 + digit_value c) rest in (v, S n)
      else (acc, O)
  | EmptyString => (acc, O)
  end.

(** [strtoll(nptr, &end, 10)] of the C library (ISO C 7.22.1.4): white
    space is skipped, an optional sign is read, then the longest run of
    decimal digits.  Without a digit no conversion is made and [end] is
    [nptr]; a value out of range is clamped and reported by [ERANGE]. *)
Definition strtoll (nptr : string) : strtoll_result :=
  let ws := trim_start nptr in
  let after_ws := Str.substr_from ws nptr in
  let '(negative, sign_len) :=
    if starts_with "-" after_ws then (true, 1%nat)
    else if starts_with "+" after_ws then (false, 1%nat)
    else (false, 0%nat) in
  let '(magnitude, ndigits) := scan_digits 0 (Str.substr_from sign_len after_ws) in
  if (ndigits =? 0)%nat then MkStrtoll 0 0 false
  else
    let exact := if negative then - magnitude else magnitude in
    let end_ := (ws + sign_len + ndigits)%nat in
    if exact >? LLONG_MAX then MkStrtoll LLONG_MAX end_ true
    else if exact <? LLONG_MIN then MkStrtoll LLONG_MIN end_ true
    else MkStrtoll exact end_ false.

(** The guard shared by both conversions:
    [value.size() > 2 && value[0] == '0' && (value[1] == 'x' || value[1] == 'X')]. *)
Definition hex_prefixed (value : string) : bool :=
  (2 <? Str.size value)%nat
  && Ascii.eqb (Str.at_ value 0) "0"
  && (Ascii.eqb (Str.at_ value 1) "x" || Ascii.eqb (Str.at_ value 1) "X").

(** [*out] on success, [None] for [false].  The texts converted are
    pieces of a NUL-terminated document, so [*end != 0] holds exactly
    when [end] is short of [value.size()]. *)
Definition TryParseInt64 (value : string) : option Z :=
  if Str.empty value then None
  else if hex_prefixed value then None
  else
    let r := strtoll value in
    if ll_erange r || (ll_end r =? 0)%nat || negb (ll_end r =? Str.size value)%nat
    then None
    else Some (ll_parsed r).

(** A [double] is kept as its IEEE 754 datum. *)
Abbreviation double := spec_float.

(** What a call of [strtod] leaves behind: the returned value, the
    offset of [end] from the start of the text, and whether [errno] is
    [ERANGE] afterwards. *)
Record strtod_result := MkStrtod {
  d_parsed : double;
  d_end : nat;
  d_erange : bool
}.

(** ** Values of the JavaScript engine *)

Abbreviation handle := nat.

(** A [napi_value].  [JsInt64 n] is what [napi_create_int64] makes of
    [n], [JsDouble d] what [napi_create_double] makes of [d], [JsString]
    carries the bytes given to [napi_create_string_utf8]; [JsRef] is a
    handle to an object or an array of the store. *)
Inductive JsValue :=
| JsNull
| JsBool (b : bool)
| JsInt64 (n : Z)
| JsDouble (d : double)
| JsString (s : string)
| JsRef (h : handle).

(** A container of the store.  The properties of an object are listed
    in the order they were first set, which is the order the engine
    enumerates names in.  (Keys that spell an array index are enumerated
    by the engine before the names, in numeric order; the list does not
    follow it there.) *)
Inductive JsCell :=
| JsObject (props : list (string * JsValue))
| JsArray (elems : list JsValue).

Abbreviation Heap := (list JsCell).

Definition is_array_cell (c : JsCell) : bool :=
  match c with
  | JsArray _ => true
  | JsObject _ => false
  end.

(** [obj[key] = value] on a property list: an existing key keeps its
    place and takes the new value, a new key goes last.  Keys are
    compared byte by byte, which is what the engine does for the keys
    that [plain_key] accepts; the statements that depend on which
    properties an object holds, or on their order, are made for such
    keys. *)
Fixpoint set_prop (key : string) (value : JsValue) (props : list (string * JsValue))
  : list (string * JsValue) :=
  match props with
  | [] => [(key, value)]
  | (k, x) :: rest =>
      if String.eqb k key then (k, value) :: rest
      else (k, x) :: set_prop key value rest
  end.

Definition napi_create_object (env : Heap) : Heap * handle :=
  ((env ++ [JsObject []])%list, length env).

Definition napi_create_array (env : Heap) : Heap * handle :=
  ((env ++ [JsArray []])%list, length env).

(** [napi_get_array_length] refuses what is not an array; the element is
    then stored at index [length]. *)
Definition AppendToArray (env : Heap) (array : handle) (value : JsValue) : option Heap :=
  match env !! array with
  | Some (JsArray elems) => Some (<[array := JsArray (elems ++ [value])%list]> env)
  | _ => None
  end.

(** [napi_set_property] on an object of the store: the property is
    created, or takes its new value.  The parser calls it on objects
    only (the receiver is a fresh object, or the container of a context
    whose flag says so, see [loop_body_effect]); another receiver is
    reported as a failure. *)
Definition SetObjectProperty (env : Heap) (obj : handle) (key : string) (value : JsValue)
  : option Heap :=
  match env !! obj with
  | Some (JsObject props) => Some (<[obj := JsObject (set_prop key value props)]> env)
  | _ => None
  end.

(** ** The value tree *)

(** The tree a caller sees when it walks the result. *)
#[warnings="-register-all"]
Inductive Value :=
| Null
| Bool (b : bool)
| Int64 (n : Z)
| Double (d : double)
| Str (s : string)
| Object (entries : list (string * Value))
| Array (items : list Value).

(** Reading the tree below [v] out of the store.  [fuel] bounds the
    depth; [None] is a dangling handle or exhausted fuel. *)
Fixpoint read_tree (fuel : nat) (env : Heap) (v : JsValue) : option Value :=
  match v with
  | JsNull => Some Null
  | JsBool b => Some (Bool b)
  | JsInt64 n => Some (Int64 n)
  | JsDouble d => Some (Double d)
  | JsString s => Some (Str s)
  | JsRef h =>
      match fuel with
      | O => None
      | S fuel' =>
          match env !! h with
          | Some (JsObject props) =>
              Object <$> mapM (fun kv => pair (fst kv) <$> read_tree fuel' env (snd kv)) props
          | Some (JsArray elems) =>
              Array <$> mapM (read_tree fuel' env) elems
          | None => None
          end
      end
  end.

(** ** The parser *)

Record Context := MkContext {
  indent : Z;
  is_array : bool;
  container : handle
}.

(** The state of the loop in [ParseSessionYamlToJs]: the store and the
    context stack.  The head of the list is [stack.back()]. *)
Record State := MkState {
  heap : Heap;
  stack : list Context
}.

(** [while (stack.size() > 1 && indent <= stack.back().indent) stack.pop_back();] *)
Fixpoint pop_phase (line_indent : Z) (stk : list Context) : list Context :=
  match stk with
  | top :: ((_ :: _) as below) =>
      if line_indent <=? indent top then pop_phase line_indent below else stk
  | _ => stk
  end.

Section Parser.

(** [std::strtod] of the C library, by what the code reads of it. *)
Variable strtod : string -> strtod_result.

Definition TryParseDouble (value : string) : option double :=
  if Str.empty value then None
  else if hex_prefixed value then None
  else
    let r := strtod value in
    if d_erange r || (d_end r =? 0)%nat || negb (d_end r =? Str.size value)%nat
    then None
    else Some (d_parsed r).

Definition ParseScalarToJs (value : string) : JsValue :=
  if Str.empty value then JsNull
  else if (2 <=? Str.size value)%nat
          && Ascii.eqb (Str.front value) Str.DQUOTE
          && Ascii.eqb (Str.back value) Str.DQUOTE
  then JsString (Str.substr 1 (Str.size value - 2) value)
  else if String.eqb value "true" then JsBool true
  else if String.eqb value "false" then JsBool false
  else
    match TryParseInt64 value with
    | Some int_value => JsInt64 int_value
    | None =>
        match TryParseDouble value with
        | Some double_value => JsDouble double_value
        | None => JsString value
        end
    end.

(** The container a [key:] or a bare dash opens, chosen by the line
    that follows, and the indentation its context is given. *)
Definition create_child (env : Heap) (next_info : NextLineInfo) : Heap * handle :=
  if found next_info && starts_with_dash next_info
  then napi_create_array env
  else napi_create_object env.

Definition child_indent (next_info : NextLineInfo) (line_indent : Z) : Z :=
  if found next_info then next_indent next_info else line_indent + 1.

(** The body of the [for] loop for line [i]. *)
Definition loop_body (lines : list string) (i : nat) (raw_line : string) (st : State)
  : option State :=
  let trimmed := Trim raw_line in
  if Str.empty trimmed then Some st
  else
    let line_indent := LeadingIndent raw_line in
    let stk := pop_phase line_indent (stack st) in
    match stk with
    | [] => None
    | current :: _ =>
        if starts_with "-" trimmed then
          if negb (is_array current) then Some (MkState (heap st) stk)
          else
            let item_text := Trim (Str.substr_from 1 trimmed) in
            if Str.empty item_text then
              let next_info := PeekNextLine lines (i + 1) in
              let next_is_array := found next_info && starts_with_dash next_info in
              let '(env1, child) := create_child (heap st) next_info in
              env2 ← AppendToArray env1 (container current) (JsRef child);
              Some (MkState env2
                      (MkContext (child_indent next_info line_indent) next_is_array child
                         :: stk))
            else
              match Str.find ":" item_text with
              | Some colon =>
                  let key := Trim (Str.substr 0 colon item_text) in
                  let raw_value := Trim (Str.substr_from (colon + 1) item_text) in
                  let '(env1, item_obj) := napi_create_object (heap st) in
                  let next_info := PeekNextLine lines (i + 1) in
                  if Str.empty raw_value then
                    let next_is_array := found next_info && starts_with_dash next_info in
                    let '(env2, child) := create_child env1 next_info in
                    env3 ← SetObjectProperty env2 item_obj key (JsRef child);
                    env4 ← AppendToArray env3 (container current) (JsRef item_obj);
                    Some (MkState env4
                            (MkContext (child_indent next_info line_indent) next_is_array child
                               :: MkContext line_indent false item_obj
                               :: stk))
                  else
                    let value := ParseScalarToJs raw_value in
                    env2 ← SetObjectProperty env1 item_obj key value;
                    env3 ← AppendToArray env2 (container current) (JsRef item_obj);
                    Some (MkState env3
                            (if found next_info && (line_indent <? next_indent next_info)
                             then MkContext line_indent false item_obj :: stk
                             else stk))
              | None =>
                  let value := ParseScalarToJs item_text in
                  env1 ← AppendToArray (heap st) (container current) value;
                  Some (MkState env1 stk)
              end
        else if is_array current then Some (MkState (heap st) stk)
        else
          match Str.find ":" trimmed with
          | None => Some (MkState (heap st) stk)
          | Some colon =>
              let key := Trim (Str.substr 0 colon trimmed) in
              let raw_value := Trim (Str.substr_from (colon + 1) trimmed) in
              if Str.empty raw_value then
                let next_info := PeekNextLine lines (i + 1) in
                let next_is_array := found next_info && starts_with_dash next_info in
                let '(env1, child) := create_child (heap st) next_info in
                env2 ← SetObjectProperty env1 (container current) key (JsRef child);
                Some (MkState env2
                        (MkContext (child_indent next_info line_indent) next_is_array child
                           :: stk))
              else
                let value := ParseScalarToJs raw_value in
                env1 ← SetObjectProperty (heap st) (container current) key value;
                Some (MkState env1 stk)
          end
    end.

(** [for (size_t i = ...; i < lines.size(); ++i)] over the lines
    [todo = lines[i..]] still to be read. *)
Fixpoint for_loop (lines : list string) (i : nat) (todo : list string) (st : State)
  : option State :=
  match todo with
  | [] => Some st
  | raw_line :: todo' =>
      st' ← loop_body lines i raw_line st;
      for_loop lines (S i) todo' st'
  end.

Definition root_context (root : handle) : Context := MkContext (-1) false root.

(** [ParseSessionYamlToJs(env, session)] in the store [env]: the store
    afterwards and the handle returned, [None] for [nullptr]. *)
Definition ParseSessionYamlToJs (env : Heap) (session : string) : option (Heap * handle) :=
  let lines := SplitLines session in
  let '(env0, root) := napi_create_object env in
  st ← for_loop lines 0 lines (MkState env0 [root_context root]);
  Some (heap st, root).

(** The tree the caller receives from a parse run in the store [env]. *)
Definition parse_tree (env : Heap) (session : string) : option Value :=
  '(env', root) ← ParseSessionYamlToJs env session;
  read_tree (length env') env' (JsRef root).

End Parser.

(** * Properties *)

(** The text functions are reasoned about through their lemmas. *)
Arguments Str.substr_from : simpl never.
Arguments Str.substr : simpl never.
Arguments Str.find : simpl never.
Arguments Trim : simpl never.
Arguments LeadingIndent : simpl never.
Arguments PeekNextLine : simpl never.
Arguments ParseScalarToJs : simpl never.
Arguments pop_phase : simpl never.

(** ** The store operations *)

(** [grows env env']: every container of [env] is still there in [env'],
    and is still an object, or still an array. *)
Definition grows (env env' : Heap) : Prop :=
  (length env <= length env')%nat /\
  forall a cell, env !! a = Some cell ->
    exists cell', env' !! a = Some cell' /\ is_array_cell cell' = is_array_cell cell.

Lemma grows_refl env : grows env env.
Proof. split; [lia | eauto]. Qed.

Lemma grows_trans env1 env2 env3 : grows env1 env2 -> grows env2 env3 -> grows env1 env3.
Proof.
  intros [L1 K1] [L2 K2]. split; [lia |].
  intros a cell Ha. destruct (K1 _ _ Ha) as (c2 & H2 & E2).
  destruct (K2 _ _ H2) as (c3 & H3 & E3). exists c3. split; [done | congruence].
Qed.

Lemma grows_alloc env cell : grows env (env ++ [cell])%list.
Proof.
  split; [rewrite length_app; simpl; lia |].
  intros a c Ha. exists c. split; [| done].
  by apply lookup_app_l_Some.
Qed.

Lemma grows_insert env a cell cell' :
  env !! a = Some cell -> is_array_cell cell' = is_array_cell cell ->
  grows env (<[a := cell']> env).
Proof.
  intros Ha Hk. split; [by rewrite length_insert |].
  intros b c Hb. destruct (decide (a = b)) as [-> | Hne].
  - exists cell'. split; [| congruence].
    apply list_lookup_insert_eq. by eapply lookup_lt_Some.
  - exists c. split; [| done]. by rewrite list_lookup_insert_ne.
Qed.

Lemma AppendToArray_Some env a v env' :
  AppendToArray env a v = Some env' <->
  exists elems, env !! a = Some (JsArray elems) /\
                env' = <[a := JsArray (elems ++ [v])%list]> env.
Proof.
  unfold AppendToArray. split.
  - destruct (env !! a) as [[ps | es] |]; intros H; simplify_eq. eauto.
  - intros (es & -> & ->). done.
Qed.

Lemma SetObjectProperty_Some env a key v env' :
  SetObjectProperty env a key v = Some env' <->
  exists props, env !! a = Some (JsObject props) /\
                env' = <[a := JsObject (set_prop key v props)]> env.
Proof.
  unfold SetObjectProperty. split.
  - destruct (env !! a) as [[ps | es] |]; intros H; simplify_eq. eauto.
  - intros (ps & -> & ->). done.
Qed.

Lemma AppendToArray_grows env a v env' :
  AppendToArray env a v = Some env' -> grows env env'.
Proof.
  intros (es & Ha & ->)%AppendToArray_Some. by eapply grows_insert.
Qed.

Lemma SetObjectProperty_grows env a key v env' :
  SetObjectProperty env a key v = Some env' -> grows env env'.
Proof.
  intros (ps & Ha & ->)%SetObjectProperty_Some. by eapply grows_insert.
Qed.

Lemma create_child_eq env ni :
  create_child env ni =
    ((env ++ [if found ni && starts_with_dash ni then JsArray [] else JsObject []])%list,
     length env).
Proof. unfold create_child. by destruct (found ni && starts_with_dash ni). Qed.

(** ** Well-formed states *)

(** A context is sound in a store when its handle designates a
    container of the sort its flag announces. *)
Definition ctx_ok (env : Heap) (c : Context) : bool :=
  match env !! container c with
  | Some cell => Bool.eqb (is_array_cell cell) (is_array c)
  | None => false
  end.

Definition stack_ok (env : Heap) (stk : list Context) : bool :=
  forallb (ctx_ok env) stk.

(** The values a container holds. *)
Definition cell_values (c : JsCell) : list JsValue :=
  match c with
  | JsObject props => snd <$> props
  | JsArray elems => elems
  end.

(** A handle stored in container [a] of a store of size [n] designates
    a container created after [a]. *)
Definition value_above (n a : nat) (v : JsValue) : Prop :=
  match v with
  | JsRef b => (a < b < n)%nat
  | _ => True
  end.

Definition heap_ordered (env : Heap) : Prop :=
  forall a cell, env !! a = Some cell ->
    Forall (value_above (length env) a) (cell_values cell).

Lemma ctx_ok_grows env env' c : grows env env' -> ctx_ok env c = true -> ctx_ok env' c = true.
Proof.
  intros [_ K]. unfold ctx_ok.
  destruct (env !! container c) as [cell |] eqn:E; [| done].
  destruct (K _ _ E) as (cell' & -> & ->). done.
Qed.

Lemma stack_ok_grows env env' stk :
  grows env env' -> stack_ok env stk = true -> stack_ok env' stk = true.
Proof.
  intros G. unfold stack_ok. rewrite !forallb_forall.
  intros H c Hc. eapply ctx_ok_grows; eauto.
Qed.

Lemma ctx_ok_lt env c : ctx_ok env c = true -> (container c < length env)%nat.
Proof.
  unfold ctx_ok. destruct (env !! container c) eqn:E; [| done].
  intros _. by eapply lookup_lt_Some.
Qed.

Lemma value_above_mono n n' a v : (n <= n')%nat -> value_above n a v -> value_above n' a v.
Proof. destruct v; simpl; auto. lia. Qed.

Lemma heap_ordered_alloc env cell :
  cell_values cell = [] -> heap_ordered env -> heap_ordered (env ++ [cell])%list.
Proof.
  intros Hc H a c Ha. rewrite length_app. simpl.
  apply lookup_app_Some in Ha as [Ha | [_ Ha]].
  - eapply Forall_impl; [by apply H |].
    intros v. apply value_above_mono. lia.
  - apply list_lookup_singleton_Some in Ha as [_ <-]. rewrite Hc. constructor.
Qed.

Lemma heap_ordered_insert env a cell cell' :
  heap_ordered env -> env !! a = Some cell ->
  (forall v, v ∈ cell_values cell' ->
             v ∈ cell_values cell \/ value_above (length env) a v) ->
  heap_ordered (<[a := cell']> env).
Proof.
  intros H Ha Hv b c Hb. rewrite length_insert.
  destruct (decide (a = b)) as [<- | Hne].
  - rewrite list_lookup_insert_eq in Hb by (by eapply lookup_lt_Some).
    simplify_eq. apply Forall_forall. intros v Hin.
    destruct (Hv _ Hin) as [Hold | Hnew]; [| done].
    specialize (H _ _ Ha). rewrite Forall_forall in H. by apply H.
  - rewrite list_lookup_insert_ne in Hb by done. by apply H.
Qed.

Lemma set_prop_values key v props x :
  x ∈ (snd <$> set_prop key v props) -> x ∈ (snd <$> props) \/ x = v.
Proof.
  induction props as [| [k y] rest IH]; simpl.
  - intros ->%list_elem_of_singleton. by right.
  - destruct (String.eqb k key); simpl; rewrite !elem_of_cons.
    + intros [-> | H]; auto.
    + intros [-> | H]; auto. destruct (IH H); auto.
Qed.

Lemma AppendToArray_ordered env a v env' :
  AppendToArray env a v = Some env' -> value_above (length env) a v ->
  heap_ordered env -> heap_ordered env'.
Proof.
  intros (es & Ha & ->)%AppendToArray_Some Hv H.
  eapply heap_ordered_insert; eauto. simpl. intros x.
  rewrite elem_of_app, list_elem_of_singleton. intros [? | ->]; auto.
Qed.

Lemma SetObjectProperty_ordered env a key v env' :
  SetObjectProperty env a key v = Some env' -> value_above (length env) a v ->
  heap_ordered env -> heap_ordered env'.
Proof.
  intros (ps & Ha & ->)%SetObjectProperty_Some Hv H.
  eapply heap_ordered_insert; eauto. simpl. intros x Hx.
  destruct (set_prop_values _ _ _ _ Hx) as [? | ->]; auto.
Qed.

(** A write through [AppendToArray] or [SetObjectProperty] touches the
    receiver only. *)
Lemma AppendToArray_other env a v env' b :
  AppendToArray env a v = Some env' -> a <> b -> env' !! b = env !! b.
Proof.
  intros (es & Ha & ->)%AppendToArray_Some Hne. by rewrite list_lookup_insert_ne.
Qed.

Lemma SetObjectProperty_other env a key v env' b :
  SetObjectProperty env a key v = Some env' -> a <> b -> env' !! b = env !! b.
Proof.
  intros (ps & Ha & ->)%SetObjectProperty_Some Hne. by rewrite list_lookup_insert_ne.
Qed.

(** ** The pop phase *)

Lemma pop_phase_suffix n stk : exists popped, stk = (popped ++ pop_phase n stk)%list.
Proof.
  induction stk as [| top below IH]; [by exists [] |].
  destruct below as [| c below']; [by exists [] |].
  change (pop_phase n (top :: c :: below'))
    with (if n <=? indent top then pop_phase n (c :: below') else top :: c :: below').
  destruct (n <=? indent top); [| by exists []].
  destruct IH as [popped IH]. exists (top :: popped).
  rewrite <- app_comm_cons. by f_equal.
Qed.

Lemma pop_phase_nonempty n stk : stk <> [] -> pop_phase n stk <> [].
Proof.
  induction stk as [| top below IH]; [done |].
  intros _. destruct below as [| c below']; [done |].
  change (pop_phase n (top :: c :: below'))
    with (if n <=? indent top then pop_phase n (c :: below') else top :: c :: below').
  destruct (n <=? indent top); [| done]. by apply IH.
Qed.

Lemma pop_phase_last n stk : last (pop_phase n stk) = last stk.
Proof.
  induction stk as [| top below IH]; [done |].
  destruct below as [| c below']; [done |].
  change (pop_phase n (top :: c :: below'))
    with (if n <=? indent top then pop_phase n (c :: below') else top :: c :: below').
  destruct (n <=? indent top); [| done]. by rewrite IH.
Qed.

Lemma stack_ok_pop env n stk : stack_ok env stk = true -> stack_ok env (pop_phase n stk) = true.
Proof.
  destruct (pop_phase_suffix n stk) as [popped E]. rewrite E at 1.
  unfold stack_ok. rewrite forallb_app. by intros [_ ?]%andb_true_iff.
Qed.

(** ** The effect of one line on the store *)

(** What the writes of one loop iteration may do to the store, for a
    current container [cur] and the store size [base] the iteration
    started from: containers are kept together with their sort, every
    older container other than [cur] is left as it was, and handles keep
    pointing forward. *)
Record heap_effect (base : nat) (cur : handle) (env env' : Heap) : Prop := MkEffect {
  he_grows : grows env env';
  he_frame : forall a, a <> cur -> (a < base)%nat -> env' !! a = env !! a;
  he_ordered : heap_ordered env -> heap_ordered env'
}.

Lemma heap_effect_refl base cur env : heap_effect base cur env env.
Proof. split; auto using grows_refl. Qed.

Lemma heap_effect_trans base cur env1 env2 env3 :
  heap_effect base cur env1 env2 -> heap_effect base cur env2 env3 ->
  heap_effect base cur env1 env3.
Proof.
  intros [G1 F1 O1] [G2 F2 O2]. split.
  - by eapply grows_trans.
  - intros a Hne Hlt. rewrite F2, F1 by done. done.
  - auto.
Qed.

Lemma alloc_effect base cur env cell :
  cell_values cell = [] -> (base <= length env)%nat ->
  heap_effect base cur env (env ++ [cell])%list.
Proof.
  intros Hc Hb. split.
  - apply grows_alloc.
  - intros a _ Hlt. apply lookup_app_l. lia.
  - by apply heap_ordered_alloc.
Qed.

Lemma AppendToArray_effect base cur env r v elems :
  env !! r = Some (JsArray elems) -> r = cur \/ (base <= r)%nat ->
  value_above (length env) r v ->
  exists env', AppendToArray env r v = Some env' /\
               heap_effect base cur env env' /\ length env' = length env.
Proof.
  intros Hr Hfresh Hv. unfold AppendToArray. rewrite Hr.
  eexists. split; [done |]. split; [| by rewrite length_insert].
  assert (AppendToArray env r v = Some (<[r:=JsArray (elems ++ [v])%list]> env)) as Heq
    by (unfold AppendToArray; by rewrite Hr).
  split.
  - by eapply AppendToArray_grows.
  - intros a Hne Hlt. eapply AppendToArray_other; [done |]. lia.
  - by eapply AppendToArray_ordered.
Qed.

Lemma SetObjectProperty_effect base cur env r key v props :
  env !! r = Some (JsObject props) -> r = cur \/ (base <= r)%nat ->
  value_above (length env) r v ->
  exists env', SetObjectProperty env r key v = Some env' /\
               heap_effect base cur env env' /\ length env' = length env /\
               env' !! r = Some (JsObject (set_prop key v props)).
Proof.
  intros Hr Hfresh Hv. unfold SetObjectProperty. rewrite Hr.
  eexists. split; [done |].
  assert (SetObjectProperty env r key v
          = Some (<[r:=JsObject (set_prop key v props)]> env)) as Heq
    by (unfold SetObjectProperty; by rewrite Hr).
  split; [| split; [by rewrite length_insert |]].
  - split.
    + by eapply SetObjectProperty_grows.
    + intros a Hne Hlt. eapply SetObjectProperty_other; [done |]. lia.
    + by eapply SetObjectProperty_ordered.
  - apply list_lookup_insert_eq. by eapply lookup_lt_Some.
Qed.

Section Steps.

Variable strtod : string -> strtod_result.

Lemma ParseScalarToJs_above value n a : value_above n a (ParseScalarToJs strtod value).
Proof.
  unfold ParseScalarToJs. repeat case_match; exact I.
Qed.

(** The effect of one non-blank line: the stack is the popped stack
    with at most two fresh contexts on top, and the store changes as
    [heap_effect] allows around the current container. *)
Record step_effect (n : Z) (st st' : State) : Prop := MkStep {
  se_stack : exists pushed,
    stack st' = (pushed ++ pop_phase n (stack st))%list /\
    Forall (fun c => ctx_ok (heap st') c = true /\
                     (length (heap st) <= container c)%nat) pushed;
  se_heap : forall cur below, pop_phase n (stack st) = cur :: below ->
    heap_effect (length (heap st)) (container cur) (heap st) (heap st')
}.

Lemma ctx_ok_fresh env cell env' flag n :
  grows (env ++ [cell])%list env' -> is_array_cell cell = flag ->
  ctx_ok env' (MkContext n flag (length env)) = true.
Proof.
  intros G <-. eapply ctx_ok_grows; [done |].
  unfold ctx_ok. simpl. rewrite lookup_app_r, Nat.sub_diag by lia. simpl.
  by destruct (is_array_cell cell).
Qed.

Lemma loop_body_effect lines i raw st :
  stack_ok (heap st) (stack st) = true -> stack st <> [] ->
  exists st', loop_body strtod lines i raw st = Some st' /\
    if Str.empty (Trim raw) then st' = st
    else step_effect (LeadingIndent raw) st st'.
Proof.
  intros Hok Hne. unfold loop_body.
  destruct (Str.empty (Trim raw)) eqn:Eblank; [by eexists |].
  set (n := LeadingIndent raw).
  pose proof (stack_ok_pop _ n _ Hok) as Hpok.
  pose proof (pop_phase_nonempty n _ Hne) as Hpne.
  destruct (pop_phase n (stack st)) as [| cur below] eqn:Epop; [done |].
  assert (ctx_ok (heap st) cur = true) as Hcur
    by (simpl in Hpok; by apply andb_true_iff in Hpok as [? _]).
  pose proof (ctx_ok_lt _ _ Hcur) as Hlt.
  unfold ctx_ok in Hcur.
  destruct (heap st !! container cur) as [cell |] eqn:Ecell; [| done].
  assert (step_effect n st (MkState (heap st) (cur :: below))) as Hskip.
  { split; simpl.
    - exists []. rewrite Epop. split; [done | constructor].
    - intros. apply heap_effect_refl. }
  set (base := length (heap st)) in *.
  set (ni := PeekNextLine lines (i + 1)).
  set (kind := found ni && starts_with_dash ni).
  set (fresh := if kind then JsArray [] else JsObject []).
  assert (cell_values fresh = []) as Hfresh by (subst fresh; by destruct kind).
  assert (is_array_cell fresh = kind) as Hkind by (subst fresh; by destruct kind).
  destruct (starts_with "-" (Trim raw)).
  - destruct (is_array cur) eqn:Earr; simpl; [| eauto].
    destruct cell as [ps | es]; [done |].
    destruct (Str.empty (Trim (Str.substr_from 1 (Trim raw)))).
    + (* a bare dash *)
      rewrite create_child_eq. fold kind fresh base.
      destruct (AppendToArray_effect base (container cur) (heap st ++ [fresh])%list
                  (container cur) (JsRef base) es) as (env' & -> & Heff & Hlen).
      { by apply lookup_app_l_Some. }
      { by left. }
      { simpl. rewrite length_app. simpl. fold base. lia. }
      simpl. eexists. split; [done |]. split; simpl.
      * eexists [_]. rewrite Epop. split; [done |].
        constructor; [| constructor]. split; [| simpl; lia].
        eapply ctx_ok_fresh; [apply Heff | done].
      * intros ? ? Heq; rewrite Epop in Heq; injection Heq as <- <-. eapply heap_effect_trans; [| apply Heff].
        by apply alloc_effect.
    + destruct (Str.find ":" (Trim (Str.substr_from 1 (Trim raw)))) as [colon |].
      * unfold napi_create_object. fold base.
        set (key := Trim (Str.substr 0 colon _)).
        destruct (Str.empty (Trim (Str.substr_from (colon + 1) _))).
        -- (* a dash with a key and no value *)
           rewrite create_child_eq. fold kind fresh.
           rewrite length_app. simpl. fold base.
           set (env1 := (heap st ++ [JsObject []])%list).
           set (env2 := (env1 ++ [fresh])%list).
           assert (length env2 = S (S base)) as Hl2
             by (subst env2 env1; rewrite !length_app; simpl; fold base; lia).
           destruct (SetObjectProperty_effect base (container cur) env2 base key
                       (JsRef (base + 1)) []) as (env3 & E3 & Heff3 & Hlen3 & _).
           { subst env2 env1. apply lookup_app_l_Some.
             rewrite lookup_app_r by (fold base; lia).
             fold base. by rewrite Nat.sub_diag. }
           { right. lia. }
           { simpl. lia. }
           rewrite E3. simpl.
           destruct (AppendToArray_effect base (container cur) env3
                       (container cur) (JsRef base) es) as (env4 & -> & Heff4 & Hlen4).
           { rewrite (SetObjectProperty_other _ _ _ _ _ (container cur) E3) by lia.
             subst env2 env1. by do 2 apply lookup_app_l_Some. }
           { by left. }
           { simpl. lia. }
           simpl. eexists. split; [done |]. split; simpl.
           ++ eexists [_; _]. rewrite Epop. split; [done |].
              constructor; [| constructor; [| constructor]].
              ** split; [| simpl; fold base; lia].
                 replace (base + 1)%nat with (length env1)
                   by (subst env1; rewrite length_app; simpl; fold base; lia).
                 eapply ctx_ok_fresh; [| done].
                 eapply grows_trans; [apply Heff3 | apply Heff4].
              ** split; [| simpl; fold base; lia].
                 eapply (ctx_ok_fresh (heap st) (JsObject [])); [| done].
                 eapply grows_trans; [apply grows_alloc |]. fold env1 env2.
                 eapply grows_trans; [apply Heff3 | apply Heff4].
           ++ intros ? ? Heq; rewrite Epop in Heq; injection Heq as <- <-.
              apply (heap_effect_trans _ _ _ env1); [by apply alloc_effect |].
              apply (heap_effect_trans _ _ _ env2);
                [apply alloc_effect; [done | subst env1; rewrite length_app; lia] |].
              eapply heap_effect_trans; [apply Heff3 | apply Heff4].
        -- (* a dash with a key and a scalar *)
           set (env1 := (heap st ++ [JsObject []])%list).
           set (value := ParseScalarToJs strtod _).
           destruct (SetObjectProperty_effect base (container cur) env1 base key
                       value []) as (env2 & E2 & Heff2 & Hlen2 & _).
           { subst env1. rewrite lookup_app_r by (fold base; lia).
             fold base. by rewrite Nat.sub_diag. }
           { right. lia. }
           { apply ParseScalarToJs_above. }
           rewrite E2. simpl.
           destruct (AppendToArray_effect base (container cur) env2
                       (container cur) (JsRef base) es) as (env3 & -> & Heff3 & Hlen3).
           { rewrite (SetObjectProperty_other _ _ _ _ _ (container cur) E2) by lia.
             subst env1. by apply lookup_app_l_Some. }
           { by left. }
           { simpl. rewrite Hlen2. subst env1. rewrite length_app. simpl. fold base. lia. }
           simpl. eexists. split; [done |].
           assert (grows env1 env3) as G13
             by (eapply grows_trans; [apply Heff2 | apply Heff3]).
           split; simpl.
           ++ destruct (found ni && (n <? next_indent ni)).
              ** eexists [_]. rewrite Epop. split; [done |].
                 constructor; [| constructor]. split; [| simpl; fold base; lia].
                 by eapply (ctx_ok_fresh (heap st) (JsObject [])).
              ** exists []. rewrite Epop. split; [done | constructor].
           ++ intros ? ? Heq; rewrite Epop in Heq; injection Heq as <- <-.
              apply (heap_effect_trans _ _ _ env1); [by apply alloc_effect |].
              eapply heap_effect_trans; [apply Heff2 | apply Heff3].
      * (* a dash with a scalar *)
        destruct (AppendToArray_effect base (container cur) (heap st)
                    (container cur)
                    (ParseScalarToJs strtod (Trim (Str.substr_from 1 (Trim raw)))) es)
          as (env1 & -> & Heff1 & Hlen1).
        { done. }
        { by left. }
        { apply ParseScalarToJs_above. }
        simpl. eexists. split; [done |]. split; simpl.
        -- exists []. rewrite Epop. split; [done | constructor].
        -- by intros ? ? Heq; rewrite Epop in Heq; injection Heq as <- <-.
  - destruct (is_array cur) eqn:Earr; simpl; [eauto |].
    destruct cell as [ps | es]; [| done].
    destruct (Str.find ":" (Trim raw)) as [colon |]; [| eauto].
    set (key := Trim (Str.substr 0 colon _)).
    destruct (Str.empty (Trim (Str.substr_from (colon + 1) _))).
    + (* a key and no value *)
      rewrite create_child_eq. fold kind fresh base.
      destruct (SetObjectProperty_effect base (container cur) (heap st ++ [fresh])%list
                  (container cur) key (JsRef base) ps) as (env' & -> & Heff & Hlen & _).
      { by apply lookup_app_l_Some. }
      { by left. }
      { simpl. rewrite length_app. simpl. fold base. lia. }
      simpl. eexists. split; [done |]. split; simpl.
      * eexists [_]. rewrite Epop. split; [done |].
        constructor; [| constructor]. split; [| simpl; lia].
        eapply ctx_ok_fresh; [apply Heff | done].
      * intros ? ? Heq; rewrite Epop in Heq; injection Heq as <- <-. eapply heap_effect_trans; [| apply Heff].
        by apply alloc_effect.
    + (* a key and a scalar *)
      destruct (SetObjectProperty_effect base (container cur) (heap st)
                  (container cur) key
                  (ParseScalarToJs strtod (Trim (Str.substr_from (colon + 1) (Trim raw)))) ps)
        as (env1 & -> & Heff1 & Hlen1 & _).
      { done. }
      { by left. }
      { apply ParseScalarToJs_above. }
      simpl. eexists. split; [done |]. split; simpl.
      * exists []. rewrite Epop. split; [done | constructor].
      * by intros ? ? Heq; rewrite Epop in Heq; injection Heq as <- <-.
Qed.

(** ** The loop invariant *)

(** The context stack is sound for the store, the root context is at
    its bottom, and handles of the store point forward. *)
Record invariant (root : handle) (st : State) : Prop := MkInv {
  inv_stack : stack_ok (heap st) (stack st) = true;
  inv_root : last (stack st) = Some (root_context root);
  inv_ordered : heap_ordered (heap st)
}.

Lemma invariant_nonempty root st : invariant root st -> stack st <> [].
Proof. intros [_ H _] E. by rewrite E in H. Qed.

Lemma loop_body_invariant root lines i raw st :
  invariant root st ->
  exists st', loop_body strtod lines i raw st = Some st' /\
              invariant root st' /\ grows (heap st) (heap st').
Proof.
  intros Hinv. pose proof (invariant_nonempty _ _ Hinv) as Hne.
  destruct Hinv as [Hok Hroot Hord].
  destruct (loop_body_effect lines i raw st Hok Hne) as (st' & Hst' & Heff).
  exists st'. split; [done |].
  destruct (Str.empty (Trim raw)).
  { subst st'. split; [done | apply grows_refl]. }
  destruct Heff as [(pushed & Hstk & Hpushed) Hheap].
  pose proof (pop_phase_nonempty (LeadingIndent raw) _ Hne) as Hpne.
  destruct (pop_phase (LeadingIndent raw) (stack st)) as [| cur below] eqn:Epop; [done |].
  specialize (Hheap _ _ eq_refl). destruct Hheap as [G F O].
  split; [| done]. split.
  - rewrite Hstk. unfold stack_ok. rewrite forallb_app. apply andb_true_iff. split.
    + apply forallb_forall. intros c Hc%list_elem_of_In.
      rewrite Forall_forall in Hpushed. by apply Hpushed.
    + change (stack_ok (heap st') (cur :: below) = true).
      apply (stack_ok_grows (heap st)); [done |].
      rewrite <- Epop. by apply stack_ok_pop.
  - rewrite Hstk, last_app_cons, <- Epop, pop_phase_last. done.
  - auto.
Qed.

Lemma for_loop_invariant root lines todo : forall i st,
  invariant root st ->
  exists st', for_loop strtod lines i todo st = Some st' /\
              invariant root st' /\ grows (heap st) (heap st').
Proof.
  induction todo as [| raw todo IH]; intros i st Hinv; simpl.
  - exists st. split; [done |]. split; [done | apply grows_refl].
  - destruct (loop_body_invariant root lines i raw st Hinv) as (st1 & -> & Hinv1 & G1).
    simpl. destruct (IH (S i) st1 Hinv1) as (st' & -> & Hinv' & G').
    exists st'. split; [done |]. split; [done |]. by eapply grows_trans.
Qed.


Lemma for_loop_blank lines todo : forall i st,
  Forall (fun line => Trim line = EmptyString) todo ->
  for_loop strtod lines i todo st = Some st.
Proof.
  induction todo as [| raw todo IH]; intros i st H; [done |].
  inversion H as [| ? ? Hraw Htodo]; subst. simpl.
  unfold loop_body. rewrite Hraw. simpl. by apply IH.
Qed.

(** The state the loop starts from. *)
Definition initial_state (env : Heap) : State :=
  MkState (env ++ [JsObject []])%list [root_context (length env)].

Lemma ParseSessionYamlToJs_unfold env session :
  ParseSessionYamlToJs strtod env session =
    (st ← for_loop strtod (SplitLines session) 0 (SplitLines session) (initial_state env);
     Some (heap st, length env)).
Proof. done. Qed.

Lemma initial_invariant : invariant 0 (initial_state []).
Proof.
  split; simpl; [done | done |].
  intros a cell Ha. apply list_lookup_singleton_Some in Ha as [_ <-]. constructor.
Qed.

End Steps.

(** ** Reading trees *)

(** Renaming the handles of a value, of a container. *)
Definition rename_value (phi : handle -> handle) (v : JsValue) : JsValue :=
  match v with
  | JsRef h => JsRef (phi h)
  | _ => v
  end.

Definition rename_cell (phi : handle -> handle) (c : JsCell) : JsCell :=
  match c with
  | JsObject props => JsObject (prod_map id (rename_value phi) <$> props)
  | JsArray elems => JsArray (rename_value phi <$> elems)
  end.

Lemma read_tree_scalar fuel env v :
  (forall h, v <> JsRef h) ->
  read_tree fuel env v =
    match v with
    | JsNull => Some Null
    | JsBool b => Some (Bool b)
    | JsInt64 n => Some (Int64 n)
    | JsDouble d => Some (Double d)
    | JsString s => Some (Str s)
    | JsRef _ => None
    end.
Proof. intros H. destruct v; destruct fuel; try done. by destruct (H h). Qed.

(** A tree read from [env] is read again, with no less fuel, from any
    store that holds the same containers under renamed handles. *)
Lemma read_tree_sim (phi : handle -> handle) env env' :
  (forall h cell, env !! h = Some cell -> env' !! phi h = Some (rename_cell phi cell)) ->
  forall fuel fuel' v t, (fuel <= fuel')%nat ->
    read_tree fuel env v = Some t ->
    read_tree fuel' env' (rename_value phi v) = Some t.
Proof.
  intros Hsim. induction fuel as [| fuel IH]; intros fuel' v t Hle Hread.
  - destruct v; try (destruct fuel'; exact Hread). done.
  - destruct v; try (destruct fuel'; exact Hread).
    destruct fuel' as [| fuel']; [lia |].
    simpl in *. destruct (env !! h) as [cell |] eqn:Ecell; [| done].
    rewrite (Hsim _ _ Ecell).
    destruct cell as [props | elems]; simpl in *.
    + destruct (mapM _ props) as [entries |] eqn:Em; [| done].
      simpl in Hread. simplify_eq.
      apply mapM_Some in Em.
      erewrite (proj2 (mapM_Some _ _ entries)); [done |].
      apply Forall2_fmap_l. eapply Forall2_impl; [exact Em |].
      intros [k x] y. simpl. intros Hx.
      destruct (read_tree fuel env x) as [tx |] eqn:Ex; [| done].
      erewrite IH; [exact Hx | lia | exact Ex].
    + destruct (mapM _ elems) as [items |] eqn:Em; [| done].
      simpl in Hread. simplify_eq.
      apply mapM_Some in Em.
      erewrite (proj2 (mapM_Some _ _ items)); [done |].
      apply Forall2_fmap_l. eapply Forall2_impl; [exact Em |].
      intros x y Hx. simpl. eapply IH; [lia | exact Hx].
Qed.

Lemma rename_value_id v : rename_value id v = v.
Proof. by destruct v. Qed.

Lemma rename_cell_id c : rename_cell id c = c.
Proof.
  destruct c as [props | elems]; simpl; f_equal.
  - induction props as [| [k x] rest IH]; [done |].
    rewrite fmap_cons. f_equal; [| exact IH].
    unfold prod_map. simpl. by rewrite rename_value_id.
  - induction elems as [| x rest IH]; [done |].
    rewrite fmap_cons. f_equal; [apply rename_value_id | exact IH].
Qed.

(** More fuel and a larger store read the same tree. *)
Lemma read_tree_mono env ext fuel fuel' v t :
  (fuel <= fuel')%nat -> read_tree fuel env v = Some t ->
  read_tree fuel' (env ++ ext)%list v = Some t.
Proof.
  intros Hle Hread. rewrite <- (rename_value_id v).
  eapply (read_tree_sim id env); [| exact Hle | exact Hread].
  intros h cell Hh. rewrite rename_cell_id. by apply lookup_app_l_Some.
Qed.

(** In a store whose handles point forward every container can be read,
    with fuel for the containers that follow it. *)
Lemma read_tree_total env :
  heap_ordered env ->
  forall fuel a, (a < length env)%nat -> (length env - a <= fuel)%nat ->
    is_Some (read_tree fuel env (JsRef a)).
Proof.
  intros Hord. induction fuel as [| fuel IH]; intros a Ha Hfuel; [lia |].
  simpl. destruct (lookup_lt_is_Some_2 env a Ha) as [cell Hcell]. rewrite Hcell.
  specialize (Hord _ _ Hcell).
  assert (forall v, value_above (length env) a v -> is_Some (read_tree fuel env v)) as Hv.
  { intros v Hab. destruct v; try (rewrite read_tree_scalar by done; done).
    simpl in Hab. apply IH; lia. }
  destruct cell as [props | elems]; simpl in Hord.
  - apply fmap_is_Some, mapM_is_Some. apply Forall_forall. intros [k x] Hin.
    simpl. apply fmap_is_Some, Hv.
    rewrite Forall_forall in Hord. apply Hord.
    apply list_elem_of_fmap. by exists (k, x).
  - apply fmap_is_Some, mapM_is_Some. eapply Forall_impl; [exact Hord |]. exact Hv.
Qed.

Lemma read_tree_object fuel env a props t :
  env !! a = Some (JsObject props) -> read_tree fuel env (JsRef a) = Some t ->
  exists entries, t = Object entries.
Proof.
  intros Ha. destruct fuel as [| fuel]; [done |]. simpl. rewrite Ha.
  destruct (mapM _ props) as [entries |]; [| done]. simpl. intros [= <-]. eauto.
Qed.

(** ** A parse in a store that is not empty *)

(** The state a run reaches in the store [env] is the state the same run
    reaches in the empty store, moved behind [env]. *)
Definition shift_ctx (d : nat) (c : Context) : Context :=
  MkContext (indent c) (is_array c) (d + container c).

Definition rebase_heap (env : Heap) (h : Heap) : Heap :=
  (env ++ (rename_cell (Nat.add (length env)) <$> h))%list.

Definition rebase (env : Heap) (st : State) : State :=
  MkState (rebase_heap env (heap st)) (shift_ctx (length env) <$> stack st).

Lemma length_rebase_heap env h : length (rebase_heap env h) = (length env + length h)%nat.
Proof. unfold rebase_heap. by rewrite length_app, length_fmap. Qed.

Lemma lookup_rebase_heap env h a :
  rebase_heap env h !! (length env + a)%nat = rename_cell (Nat.add (length env)) <$> h !! a.
Proof.
  unfold rebase_heap. rewrite lookup_app_r by lia.
  replace (length env + a - length env)%nat with a by lia.
  by rewrite list_lookup_fmap.
Qed.

Lemma rebase_heap_alloc env h cell :
  cell_values cell = [] ->
  (rebase_heap env h ++ [cell])%list = rebase_heap env (h ++ [cell]).
Proof.
  intros Hc. unfold rebase_heap. rewrite fmap_app, <- app_assoc. do 2 f_equal.
  destruct cell as [ps | es]; simpl in *.
  - apply fmap_nil_inv in Hc. by subst.
  - by subst.
Qed.

Lemma rebase_heap_insert env h a cell :
  <[(length env + a)%nat := rename_cell (Nat.add (length env)) cell]> (rebase_heap env h)
  = rebase_heap env (<[a := cell]> h).
Proof. unfold rebase_heap. by rewrite insert_app_r, list_fmap_insert. Qed.

Lemma set_prop_rename (f : JsValue -> JsValue) key v props :
  prod_map id f <$> set_prop key v props = set_prop key (f v) (prod_map id f <$> props).
Proof.
  induction props as [| [k x] rest IH]; [done |].
  rewrite fmap_cons. unfold prod_map at 2. cbn [set_prop fst snd id].
  destruct (String.eqb k key); [done |].
  rewrite fmap_cons. f_equal. exact IH.
Qed.

Lemma SetObjectProperty_rebase env h a key v :
  SetObjectProperty (rebase_heap env h) (length env + a) key
    (rename_value (Nat.add (length env)) v)
  = rebase_heap env <$> SetObjectProperty h a key v.
Proof.
  unfold SetObjectProperty. rewrite lookup_rebase_heap.
  destruct (h !! a) as [[ps | es] |]; simpl; [| done | done].
  rewrite <- rebase_heap_insert. simpl. by rewrite set_prop_rename.
Qed.

Lemma AppendToArray_rebase env h a v :
  AppendToArray (rebase_heap env h) (length env + a)
    (rename_value (Nat.add (length env)) v)
  = rebase_heap env <$> AppendToArray h a v.
Proof.
  unfold AppendToArray. rewrite lookup_rebase_heap.
  destruct (h !! a) as [[ps | es] |]; simpl; [done | | done].
  rewrite <- rebase_heap_insert. simpl. by rewrite fmap_app.
Qed.

Lemma pop_phase_shift d n stk :
  pop_phase n (shift_ctx d <$> stk) = shift_ctx d <$> pop_phase n stk.
Proof.
  induction stk as [| top below IH]; [done |].
  destruct below as [| c below']; [done |].
  change (pop_phase n (top :: c :: below'))
    with (if n <=? indent top then pop_phase n (c :: below') else top :: c :: below').
  rewrite !fmap_cons.
  change (pop_phase n (shift_ctx d top :: shift_ctx d c :: (shift_ctx d <$> below')))
    with (if n <=? indent top
          then pop_phase n (shift_ctx d c :: (shift_ctx d <$> below'))
          else shift_ctx d top :: shift_ctx d c :: (shift_ctx d <$> below')).
  destruct (n <=? indent top); [| done].
  rewrite <- IH. done.
Qed.

Section Rebase.

Variable strtod : string -> strtod_result.

Lemma ParseScalarToJs_rename phi value :
  rename_value phi (ParseScalarToJs strtod value) = ParseScalarToJs strtod value.
Proof. unfold ParseScalarToJs. repeat case_match; done. Qed.

Lemma SetObjectProperty_rebase_ref env h a key b :
  SetObjectProperty (rebase_heap env h) (length env + a) key (JsRef (length env + b))
  = rebase_heap env <$> SetObjectProperty h a key (JsRef b).
Proof. apply (SetObjectProperty_rebase env h a key (JsRef b)). Qed.

Lemma SetObjectProperty_rebase_scalar env h a key value :
  SetObjectProperty (rebase_heap env h) (length env + a) key (ParseScalarToJs strtod value)
  = rebase_heap env <$> SetObjectProperty h a key (ParseScalarToJs strtod value).
Proof. by rewrite <- SetObjectProperty_rebase, ParseScalarToJs_rename. Qed.

Lemma AppendToArray_rebase_ref env h a b :
  AppendToArray (rebase_heap env h) (length env + a) (JsRef (length env + b))
  = rebase_heap env <$> AppendToArray h a (JsRef b).
Proof. apply (AppendToArray_rebase env h a (JsRef b)). Qed.

Lemma AppendToArray_rebase_scalar env h a value :
  AppendToArray (rebase_heap env h) (length env + a) (ParseScalarToJs strtod value)
  = rebase_heap env <$> AppendToArray h a (ParseScalarToJs strtod value).
Proof. by rewrite <- AppendToArray_rebase, ParseScalarToJs_rename. Qed.

Ltac rebase_ops :=
  repeat first
    [ rewrite create_child_eq
    | rewrite length_rebase_heap
    | rewrite rebase_heap_alloc by (done || by case_match)
    | rewrite SetObjectProperty_rebase_ref
    | rewrite SetObjectProperty_rebase_scalar
    | rewrite AppendToArray_rebase_ref
    | rewrite AppendToArray_rebase_scalar ].

Lemma loop_body_rebase env lines i raw st :
  loop_body strtod lines i raw (rebase env st)
  = rebase env <$> loop_body strtod lines i raw st.
Proof.
  unfold loop_body.
  destruct (Str.empty (Trim raw)); [done |].
  cbn [stack heap rebase]. rewrite pop_phase_shift.
  destruct (pop_phase (LeadingIndent raw) (stack st)) as [| cur below]; [done |].
  rewrite fmap_cons. cbn [shift_ctx is_array container].
  destruct (starts_with "-" (Trim raw)).
  - destruct (is_array cur); [| done]. cbn [negb].
    destruct (Str.empty (Trim (Str.substr_from 1 (Trim raw)))).
    + rebase_ops.
      by destruct (AppendToArray _ (container cur) _).
    + destruct (Str.find ":" (Trim (Str.substr_from 1 (Trim raw)))) as [colon |].
      * unfold napi_create_object.
        destruct (Str.empty (Trim (Str.substr_from (colon + 1) _))).
        -- rebase_ops.
           destruct (SetObjectProperty _ (length (heap st)) _ _) as [env3 |]; [| done].
           cbn [fmap option_fmap option_map mbind option_bind]. rebase_ops.
           by destruct (AppendToArray _ (container cur) _).
        -- rebase_ops.
           destruct (SetObjectProperty _ (length (heap st)) _ _) as [env3 |]; [| done].
           cbn [fmap option_fmap option_map mbind option_bind]. rebase_ops.
           destruct (AppendToArray _ (container cur) _); [| done].
           by destruct (found _ && _).
      * rebase_ops. by destruct (AppendToArray _ (container cur) _).
  - destruct (is_array cur); [done |].
    destruct (Str.find ":" (Trim raw)) as [colon |]; [| done].
    destruct (Str.empty (Trim (Str.substr_from (colon + 1) _))).
    + rebase_ops. by destruct (SetObjectProperty _ (container cur) _ _).
    + rebase_ops. by destruct (SetObjectProperty _ (container cur) _ _).
Qed.

End Rebase.

Section Runs.

Variable strtod : string -> strtod_result.

Lemma for_loop_rebase env lines todo : forall i st,
  for_loop strtod lines i todo (rebase env st)
  = rebase env <$> for_loop strtod lines i todo st.
Proof.
  induction todo as [| raw todo IH]; intros i st; [done |].
  simpl. rewrite loop_body_rebase.
  destruct (loop_body strtod lines i raw st) as [st1 |]; [| done].
  simpl. apply IH.
Qed.

Lemma initial_state_rebase env : initial_state env = rebase env (initial_state []).
Proof.
  unfold initial_state, rebase, rebase_heap, root_context, shift_ctx. simpl.
  by rewrite Nat.add_0_r.
Qed.

(** Every prefix of the lines is processed without failure, from any
    store, and leaves the root context at the bottom of the stack. *)
Lemma run_prefix env lines todo i :
  exists st, for_loop strtod lines i todo (initial_state []) = Some st /\
             invariant 0 st /\
             for_loop strtod lines i todo (initial_state env) = Some (rebase env st).
Proof.
  destruct (for_loop_invariant strtod 0 lines todo i _ initial_invariant)
    as (st & Hst & Hinv & _).
  exists st. split; [done |]. split; [done |].
  by rewrite initial_state_rebase, for_loop_rebase, Hst.
Qed.

Lemma ParseSessionYamlToJs_rebase env session :
  ParseSessionYamlToJs strtod env session
  = (fun r => (rebase_heap env r.1, (length env + r.2)%nat))
      <$> ParseSessionYamlToJs strtod [] session.
Proof.
  rewrite !ParseSessionYamlToJs_unfold.
  destruct (run_prefix env (SplitLines session) (SplitLines session) 0)
    as (st & -> & _ & ->).
  simpl. by rewrite Nat.add_0_r.
Qed.

(** A parse in the empty store succeeds; its root is an object and the
    whole tree below it can be read. *)
Lemma parse_succeeds session :
  exists h props entries,
    ParseSessionYamlToJs strtod [] session = Some (h, 0%nat) /\
    h !! 0%nat = Some (JsObject props) /\
    read_tree (length h) h (JsRef 0) = Some (Object entries).
Proof.
  rewrite ParseSessionYamlToJs_unfold.
  destruct (run_prefix [] (SplitLines session) (SplitLines session) 0)
    as (st & -> & [Hok Hroot Hord] & _).
  simpl.
  assert (ctx_ok (heap st) (root_context 0) = true) as Hctx.
  { unfold stack_ok in Hok. rewrite forallb_forall in Hok. apply Hok.
    apply list_elem_of_In, last_Some_elem_of. exact Hroot. }
  pose proof (ctx_ok_lt _ _ Hctx) as Hlt. simpl in Hlt.
  unfold ctx_ok in Hctx. simpl in Hctx.
  destruct (heap st !! 0%nat) as [[props | elems] |] eqn:E0; try done.
  destruct (read_tree_total _ Hord (length (heap st)) 0 Hlt ltac:(lia)) as [t Ht].
  destruct (read_tree_object _ _ _ _ _ E0 Ht) as [entries ->].
  by exists (heap st), props, entries.
Qed.

Lemma read_tree_rebase env h a t :
  read_tree (length h) h (JsRef a) = Some t ->
  read_tree (length (rebase_heap env h)) (rebase_heap env h) (JsRef (length env + a))
  = Some t.
Proof.
  intros Hread.
  apply (read_tree_sim (Nat.add (length env)) h (rebase_heap env h)
           (fun a cell Ha => eq_trans (lookup_rebase_heap env h a)
                                      (f_equal _ Ha))
           (length h) _ (JsRef a) _); [| done].
  rewrite length_rebase_heap. lia.
Qed.

(** The tree a parse returns does not depend on the store it runs in. *)
Lemma parse_tree_env env session :
  parse_tree strtod env session = parse_tree strtod [] session.
Proof.
  unfold parse_tree. rewrite ParseSessionYamlToJs_rebase.
  destruct (parse_succeeds session) as (h & props & entries & -> & _ & Hread).
  simpl. rewrite Hread. by apply read_tree_rebase.
Qed.

Lemma pop_phase_popped (n : Z) (stk : list Context) :
  exists popped : list Context,
    stk = (popped ++ pop_phase n stk)%list /\
    Forall (fun c => n <= indent c) popped /\
    match pop_phase n stk with
    | top :: _ :: _ => indent top < n
    | _ => True
    end.
Proof.
  induction stk as [| top below IH]; [by exists [] |].
  destruct below as [| c below']; [by exists [] |].
  change (pop_phase n (top :: c :: below'))
    with (if n <=? indent top then pop_phase n (c :: below') else top :: c :: below').
  destruct (Z.leb_spec n (indent top)) as [Hle | Hgt].
  - destruct IH as (popped & E & Hall & Hstop). exists (top :: popped).
    split; [by rewrite <- app_comm_cons; f_equal |]. split; [by constructor | done].
  - exists []. split; [done |]. split; [constructor | done].
Qed.

(** C1. For every input text the parser returns an object: the call
    does not fail, the handle returned designates an object of the
    store, and the tree read from it is an [Object].  When every line
    of the text is blank (the empty text included) that object is
    empty. *)
Theorem parse_root_is_object env session :
  (exists env' props entries,
      ParseSessionYamlToJs strtod env session = Some (env', length env) /\
      env' !! length env = Some (JsObject props) /\
      parse_tree strtod env session = Some (Object entries)) /\
  (Forall (fun line => Trim line = EmptyString) (SplitLines session) ->
   parse_tree strtod env session = Some (Object [])).
Proof.
  split.
  - destruct (parse_succeeds session) as (h & props & entries & Hrun & Hroot & Hread).
    exists (rebase_heap env h), (prod_map id (rename_value (Nat.add (length env))) <$> props),
      entries.
    split; [| split].
    + rewrite ParseSessionYamlToJs_rebase, Hrun. simpl. by rewrite Nat.add_0_r.
    + pose proof (lookup_rebase_heap env h 0) as Hl.
      rewrite Nat.add_0_r, Hroot in Hl. exact Hl.
    + rewrite parse_tree_env. unfold parse_tree. rewrite Hrun. exact Hread.
  - intros Hblank. rewrite parse_tree_env. unfold parse_tree.
    rewrite ParseSessionYamlToJs_unfold, for_loop_blank by done. done.
Qed.

(** C4. A parse is the loop run from a stack that holds the root
    context alone (indent -1, object, the root container).  The pop
    phase removes a run of top contexts, each of indentation at least
    the line's, never the last entry, and stops at a single entry or at
    a top context of smaller indentation.  After any number of lines,
    and after the pop phase of any line, the stack is not empty and the
    root context is its bottom entry. *)
Theorem context_stack_keeps_root env session :
  let lines := SplitLines session in
  let root := root_context (length env) in
  ParseSessionYamlToJs strtod env session
    = (st ← for_loop strtod lines 0 lines (initial_state env); Some (heap st, length env)) /\
  stack (initial_state env) = [MkContext (-1) false (length env)] /\
  heap (initial_state env) !! length env = Some (JsObject []) /\
  (forall n stk, exists popped,
      stk = (popped ++ pop_phase n stk)%list /\
      Forall (fun c => n <= indent c) popped /\
      match pop_phase n stk with
      | top :: _ :: _ => indent top < n
      | _ => True
      end /\
      last (pop_phase n stk) = last stk) /\
  (forall k, exists st above,
      for_loop strtod lines 0 (take k lines) (initial_state env) = Some st /\
      stack st = (above ++ [root])%list /\
      forall n, exists above', pop_phase n (stack st) = (above' ++ [root])%list).
Proof.
  intros lines root. split; [done |]. split; [done |]. split.
  { simpl. rewrite lookup_app_r, Nat.sub_diag by lia. done. }
  split.
  - intros n stk. destruct (pop_phase_popped n stk) as (popped & E & Hall & Hstop).
    exists popped. split; [done |]. split; [done |]. split; [done |].
    apply pop_phase_last.
  - intros k. destruct (run_prefix env lines (take k lines) 0) as (st & _ & Hinv & Hrun).
    assert (last (stack (rebase env st)) = Some root) as Hlast.
    { simpl. rewrite fmap_last, (inv_root _ _ Hinv). simpl.
      unfold shift_ctx, root, root_context. simpl. by rewrite Nat.add_0_r. }
    destruct (proj1 (last_Some _ _) Hlast) as [above Habove].
    exists (rebase env st), above. split; [done |]. split; [done |].
    intros n. apply last_Some. by rewrite pop_phase_last.
Qed.

(** C7. Two invocations on the same text, the second in the store the
    first one left, both succeed; they return different handles whose
    trees are equal, node for node, with keys and items in the same
    order; the second invocation leaves the first tree and every older
    container as they were.  The tree returned is the same in every
    store. *)
Theorem parse_deterministic env session :
  (exists env1 root1 env2 root2 tree,
      ParseSessionYamlToJs strtod env session = Some (env1, root1) /\
      ParseSessionYamlToJs strtod env1 session = Some (env2, root2) /\
      root1 <> root2 /\
      read_tree (length env1) env1 (JsRef root1) = Some tree /\
      read_tree (length env2) env2 (JsRef root2) = Some tree /\
      read_tree (length env2) env2 (JsRef root1) = Some tree /\
      (forall a, (a < length env1)%nat -> env2 !! a = env1 !! a)) /\
  (forall other, parse_tree strtod other session = parse_tree strtod env session).
Proof.
  split; [| intros other; by rewrite (parse_tree_env other), (parse_tree_env env)].
  destruct (parse_succeeds session) as (h & props & entries & Hrun & Hroot & Hread).
  set (env1 := rebase_heap env h). set (env2 := rebase_heap env1 h).
  exists env1, (length env + 0)%nat, env2, (length env1 + 0)%nat, (Object entries).
  assert (0 < length h)%nat as Hpos by (by eapply lookup_lt_Some).
  split; [by rewrite ParseSessionYamlToJs_rebase, Hrun |].
  split; [by rewrite ParseSessionYamlToJs_rebase, Hrun |].
  split; [subst env1; rewrite length_rebase_heap; lia |].
  split; [by apply read_tree_rebase |].
  split; [by apply read_tree_rebase |].
  assert (exists ext, env2 = (env1 ++ ext)%list) as [ext Hext] by (by eexists).
  split.
  - rewrite Hext. apply (read_tree_mono _ _ (length env1)).
    + rewrite length_app. lia.
    + by apply read_tree_rebase.
  - intros a Ha. rewrite Hext. by apply lookup_app_l.
Qed.

End Runs.

(** ** Lines the tree builder skips, keys that are empty *)

Section Lines.

Variable strtod : string -> strtod_result.

(** A line that does not fit its container is skipped: a dash line
    when the current context (the top of the stack after the pop
    phase) is not an array, a line without dash when it is an array, a
    line without dash and without colon.  The iteration does not fail,
    leaves the store exactly as it was, so that every tree read from
    it is unchanged, and leaves on the stack what the pop phase left. *)
Lemma skipped_line_step lines i raw st current below :
  Str.empty (Trim raw) = false ->
  pop_phase (LeadingIndent raw) (stack st) = current :: below ->
  (starts_with "-" (Trim raw) = true /\ is_array current = false) \/
  (starts_with "-" (Trim raw) = false /\ is_array current = true) \/
  (starts_with "-" (Trim raw) = false /\ Str.find ":" (Trim raw) = None) ->
  exists st',
    loop_body strtod lines i raw st = Some st' /\
    heap st' = heap st /\
    stack st' = pop_phase (LeadingIndent raw) (stack st) /\
    forall fuel v, read_tree fuel (heap st') v = read_tree fuel (heap st) v.
Proof.
  intros Hblank Hpop Hcase.
  exists (MkState (heap st) (current :: below)).
  split; [| by rewrite Hpop].
  unfold loop_body. rewrite Hblank, Hpop.
  destruct Hcase as [[-> ->] | [[-> ->] | [-> Hcolon]]]; [done | done |].
  destruct (is_array current); [done |]. by rewrite Hcolon.
Qed.

Lemma starts_with_inv ch value :
  starts_with ch value = true -> exists rest, value = String ch rest.
Proof.
  destruct value as [| c rest]; [done |]. unfold starts_with. simpl.
  intros ->%Ascii.eqb_eq. eauto.
Qed.

(** C8. A line without dash whose trimmed text begins with a colon is
    not skipped when the current context is an object: the key is the
    empty text, and the object receives under that key the scalar read
    from the rest of the line, or the handle of a fresh container when
    the rest is blank.  The text [: 5] parses to the object that maps
    the empty key to the integer 5. *)
Theorem leading_colon_sets_empty_key lines i raw st current below props :
  starts_with ":" (Trim raw) = true ->
  pop_phase (LeadingIndent raw) (stack st) = current :: below ->
  is_array current = false ->
  heap st !! container current = Some (JsObject props) ->
  (exists st',
      loop_body strtod lines i raw st = Some st' /\
      let raw_value := Trim (Str.substr_from 1 (Trim raw)) in
      let value :=
        if Str.empty raw_value then JsRef (length (heap st))
        else ParseScalarToJs strtod raw_value in
      heap st' !! container current
        = Some (JsObject (set_prop EmptyString value props))) /\
  (forall env, parse_tree strtod env ": 5" = Some (Object [(EmptyString, Int64 5)])).
Proof.
  intros Hcolon Hpop Hobj Hcell.
  split; [| intros env; rewrite parse_tree_env; by vm_compute].
  destruct (starts_with_inv _ _ Hcolon) as [rest Hrest].
  unfold loop_body. rewrite Hpop, Hobj, Hrest.
  change (Str.empty (String ":" rest)) with false.
  change (starts_with "-" (String ":" rest)) with false.
  change (Str.find ":" (String ":" rest)) with (Some 0%nat).
  cbv iota beta zeta.
  change (Trim (Str.substr 0 0 (String ":" rest))) with EmptyString.
  change (0 + 1)%nat with 1%nat.
  pose proof (lookup_lt_Some _ _ _ Hcell) as Hlt.
  destruct (Str.empty (Trim (Str.substr_from 1 (String ":" rest)))).
  - rewrite create_child_eq. unfold SetObjectProperty.
    rewrite (lookup_app_l_Some _ _ _ _ Hcell). eexists. split; [done |].
    simpl. apply list_lookup_insert_eq. rewrite length_app. lia.
  - unfold SetObjectProperty. rewrite Hcell. eexists. split; [done |].
    simpl. by apply list_lookup_insert_eq.
Qed.

End Lines.

(** ** Containers that stay empty *)




Lemma peek_loop_found rest :
  found (peek_loop rest) = true ->
  exists blanks next_line rest',
    rest = (blanks ++ next_line :: rest')%list /\
    Forall (fun line => Trim line = EmptyString) blanks /\
    Str.empty (Trim next_line) = false /\
    peek_loop rest
      = MkNextLineInfo true (LeadingIndent next_line) (starts_with "-" (Trim next_line)).
Proof.
  induction rest as [| line rest IH]; [done |].
  simpl. destruct (Str.empty (Trim line)) eqn:E; simpl.
  - intros H. destruct (IH H) as (blanks & next_line & rest' & -> & Hb & Hn & Hp).
    exists (line :: blanks), next_line, rest'. split; [done |].
    split; [| done]. constructor; [| done]. by destruct (Trim line).
  - intros _. exists [], line, rest. split; [done |]. split; [constructor |]. done.
Qed.

Section Frozen.

Variable strtod : string -> strtod_result.



End Frozen.

Section EmptyChild.

Variable strtod : string -> strtod_result.


(** The context of a container opened by [key:] is removed by the next
    line that is not blank, whatever that line is. *)
Lemma child_context_popped n kind child current below :
  pop_phase n (MkContext n kind child :: current :: below)
  = pop_phase n (current :: below).
Proof.
  change (pop_phase n (MkContext n kind child :: current :: below))
    with (if n <=? n then pop_phase n (current :: below)
          else MkContext n kind child :: current :: below).
  by rewrite Z.leb_refl.
Qed.


End EmptyChild.

(** ** The line splitter *)

Arguments String.append : simpl nomatch.

Module Lines.

(** The text a [const char*] designates: the bytes before the first NUL. *)
Fixpoint c_str (text : string) : string :=
  match text with
  | EmptyString => EmptyString
  | String ch rest =>
      if Ascii.eqb ch Str.NUL then EmptyString else String ch (c_str rest)
  end.

(** The text without its carriage returns. *)
Fixpoint remove_cr (text : string) : string :=
  match text with
  | EmptyString => EmptyString
  | String ch rest =>
      if Ascii.eqb ch Str.CR then remove_cr rest else String ch (remove_cr rest)
  end.

(** The lines put back together, a line feed between two of them. *)
Fixpoint join_lf (lines : list string) : string :=
  match lines with
  | [] => EmptyString
  | [line] => line
  | line :: rest => line ++ String Str.LF (join_lf rest)
  end.

(** The number of occurrences of a character. *)
Fixpoint count (ch : ascii) (text : string) : nat :=
  match text with
  | EmptyString => O
  | String c rest => ((if Ascii.eqb c ch then 1 else 0) + count ch rest)%nat
  end.

Lemma append_nil_r s : s ++ EmptyString = s.
Proof. induction s as [| c s IH]; simpl; [done | by rewrite IH]. Qed.

Lemma append_assoc s1 s2 s3 : (s1 ++ s2) ++ s3 = s1 ++ (s2 ++ s3).
Proof. induction s1 as [| c s1 IH]; simpl; [done | by rewrite IH]. Qed.

(** The first line of a non-empty list of lines, extended in front. *)
Definition extend (current : string) (lines : list string) : list string :=
  match lines with
  | line :: rest => (current ++ line) :: rest
  | [] => [current]
  end.

Lemma split_loop_extend text : forall current,
  split_loop text current = extend current (SplitLines text).
Proof.
  unfold SplitLines.
  induction text as [| ch ptr IH]; intros current; simpl.
  - by rewrite append_nil_r.
  - destruct (Ascii.eqb ch Str.NUL); [by simpl; rewrite append_nil_r |].
    destruct (Ascii.eqb ch Str.CR); [apply IH |].
    destruct (Ascii.eqb ch Str.LF); [by simpl; rewrite append_nil_r |].
    rewrite (IH (current ++ String ch EmptyString)), (IH (String ch EmptyString)).
    destruct (split_loop ptr EmptyString) as [| line rest]; simpl.
    + done.
    + by rewrite append_assoc.
Qed.

(** [SplitLines], one character at a time. *)
Lemma SplitLines_cons ch ptr :
  SplitLines (String ch ptr) =
    if Ascii.eqb ch Str.NUL then [EmptyString]
    else if Ascii.eqb ch Str.CR then SplitLines ptr
    else if Ascii.eqb ch Str.LF then EmptyString :: SplitLines ptr
    else extend (String ch EmptyString) (SplitLines ptr).
Proof.
  unfold SplitLines at 1. simpl.
  destruct (Ascii.eqb ch Str.NUL); [done |].
  destruct (Ascii.eqb ch Str.CR); [done |].
  destruct (Ascii.eqb ch Str.LF); [done |].
  apply split_loop_extend.
Qed.

Lemma SplitLines_nonempty text : SplitLines text <> [].
Proof.
  induction text as [| ch ptr IH]; [done |].
  rewrite SplitLines_cons. repeat case_match; try done.
  by destruct (SplitLines ptr).
Qed.

Lemma join_lf_extend ch lines :
  lines <> [] -> join_lf (extend (String ch EmptyString) lines) = String ch (join_lf lines).
Proof. destruct lines as [| line [| l2 rest]]; done. Qed.

Lemma join_lf_cons line lines :
  lines <> [] -> join_lf (line :: lines) = line ++ String Str.LF (join_lf lines).
Proof. by destruct lines. Qed.

Lemma SplitLines_join text : join_lf (SplitLines text) = remove_cr (c_str text).
Proof.
  induction text as [| ch ptr IH]; [done |].
  rewrite SplitLines_cons. simpl.
  destruct (Ascii.eqb ch Str.NUL) eqn:Enul; [done |]. simpl.
  destruct (Ascii.eqb ch Str.CR) eqn:Ecr; [done |].
  destruct (Ascii.eqb ch Str.LF) eqn:Elf.
  - apply Ascii.eqb_eq in Elf as ->.
    rewrite join_lf_cons by apply SplitLines_nonempty. simpl. by rewrite IH.
  - rewrite join_lf_extend by apply SplitLines_nonempty. by rewrite IH.
Qed.

Lemma SplitLines_length text :
  length (SplitLines text) = S (count Str.LF (c_str text)).
Proof.
  induction text as [| ch ptr IH]; [done |].
  rewrite SplitLines_cons. simpl.
  destruct (Ascii.eqb ch Str.NUL) eqn:Enul; [done |]. simpl.
  destruct (Ascii.eqb ch Str.CR) eqn:Ecr.
  - apply Ascii.eqb_eq in Ecr as ->. simpl. exact IH.
  - destruct (Ascii.eqb ch Str.LF) eqn:Elf; simpl; [by rewrite IH |].
    pose proof (SplitLines_nonempty ptr).
    destruct (SplitLines ptr); [done |]. exact IH.
Qed.

(** No line holds a carriage return, a line feed or a NUL. *)
Definition clean (line : string) : Prop :=
  count Str.CR line = O /\ count Str.LF line = O /\ count Str.NUL line = O.

Lemma SplitLines_clean text : Forall clean (SplitLines text).
Proof.
  induction text as [| ch ptr IH]; [by repeat constructor |].
  rewrite SplitLines_cons.
  destruct (Ascii.eqb ch Str.NUL) eqn:Enul; [by repeat constructor |].
  destruct (Ascii.eqb ch Str.CR) eqn:Ecr; [done |].
  destruct (Ascii.eqb ch Str.LF) eqn:Elf; [by repeat constructor |].
  pose proof (SplitLines_nonempty ptr) as Hne.
  destruct (SplitLines ptr) as [| line rest]; [done |].
  inversion IH as [| ? ? (Hcr & Hlf & Hnul) Hrest]; subst.
  constructor; [| done]. unfold clean. simpl. by rewrite Ecr, Elf, Enul.
Qed.

(** A carriage return anywhere in the text changes nothing. *)
Lemma SplitLines_skip_cr before after :
  SplitLines (before ++ String Str.CR after) = SplitLines (before ++ after).
Proof.
  induction before as [| ch ptr IH]; [done |].
  simpl. rewrite !SplitLines_cons, IH. done.
Qed.

End Lines.

(** C3. The line splitter is a total function.  Its result is never
    empty: there is one line more than there are line feeds in the text,
    so the fragment after the last line feed is always emitted, empty or
    not.  No line holds a carriage return or a line feed, and the lines
    joined by line feeds are the text with its carriage returns removed:
    a carriage return separates nothing and a line feed always does.  A
    carriage return inserted anywhere changes nothing.  The text [a],
    line feed, [b] gives the lines [a] and [b]; the text [a], line feed
    gives [a] and the empty line. *)
Theorem split_lines_spec :
  (forall text,
      length (SplitLines text) = S (Lines.count Str.LF (Lines.c_str text)) /\
      Forall Lines.clean (SplitLines text) /\
      Lines.join_lf (SplitLines text) = Lines.remove_cr (Lines.c_str text)) /\
  (forall before after,
      SplitLines (before ++ String Str.CR after) = SplitLines (before ++ after)) /\
  SplitLines ("a" ++ String Str.LF "b") = ["a"; "b"] /\
  SplitLines ("a" ++ String Str.LF EmptyString) = ["a"; EmptyString].
Proof.
  split; [| split; [| split]].
  - intros text. split; [apply Lines.SplitLines_length |].
    split; [apply Lines.SplitLines_clean | apply Lines.SplitLines_join].
  - apply Lines.SplitLines_skip_cr.
  - reflexivity.
  - reflexivity.
Qed.

(** ** Scalar inference *)

(** The rules of scalar inference as the specification words them, on
    the list of characters of the text. *)
Module ScalarSpec.

Definition chars (text : string) : list ascii := list_ascii_of_string text.



(** Looks like a hexadecimal literal: more than two characters, the
    first two being [0x] or [0X]. *)
Definition looks_hex (text : string) : bool :=
  (2 <? length (chars text))%nat
  && (bool_decide (take 2 (chars text) = chars "0x")
      || bool_decide (take 2 (chars text) = chars "0X")).

(** The number a run of decimal digits denotes. *)
Definition decimal (digits : list ascii) : Z :=
  fold_left (fun acc c => acc * 10 + (Z.of_nat (nat_of_ascii c) - 48)) digits 0.

(** A signed decimal integer that is the entire text and fits 64 bits. *)
Definition parse_int64 (text : string) : option Z :=
  if looks_hex text then None
  else
    let '(negative, digits) :=
      match chars text with
      | c :: rest =>
          if Ascii.eqb c "-" then (true, rest)
          else if Ascii.eqb c "+" then (false, rest)
          else (false, c :: rest)
      | [] => (false, [])
      end in
    if forallb Str.isdigit digits && negb (bool_decide (digits = [])) then
      let n := if negative then - decimal digits else decimal digits in
      if (- 2 ^ 63 <=? n) && (n <? 2 ^ 63) then Some n else None
    else None.



End ScalarSpec.

Module ScalarFacts.

Import ScalarSpec.

Lemma size_chars text : Str.size text = length (chars text).
Proof. induction text as [| c rest IH]; simpl; [done | by rewrite <- IH]. Qed.





Lemma two_chars_decide (a b c d : ascii) :
  bool_decide ([a; b] = [c; d]) = Ascii.eqb a c && Ascii.eqb b d.
Proof.
  destruct (Ascii.eqb_spec a c) as [-> | Ha]; simpl.
  - destruct (Ascii.eqb_spec b d) as [-> | Hb].
    + by rewrite bool_decide_eq_true_2.
    + rewrite bool_decide_eq_false_2; [done |]. by intros [= ?].
  - rewrite bool_decide_eq_false_2; [done |]. by intros [= ?].
Qed.

Lemma hex_prefixed_eq text : hex_prefixed text = looks_hex text.
Proof.
  unfold hex_prefixed, looks_hex. rewrite size_chars.
  destruct text as [| c0 rest]; [done |].
  destruct rest as [| c1 rest]; [done |].
  destruct (2 <? length (chars (String c0 (String c1 rest))))%nat; [| done].
  change (take 2 (chars (String c0 (String c1 rest)))) with [c0; c1].
  change (chars "0x") with ["0"; "x"]%char. change (chars "0X") with ["0"; "X"]%char.
  rewrite !two_chars_decide. simpl.
  by destruct (Ascii.eqb c0 "0").
Qed.


End ScalarFacts.

Module IntegerFacts.

Import ScalarSpec ScalarFacts.




Lemma scan_digits_spec body : forall acc v n,
  scan_digits acc body = (v, n) ->
  (n <= length (chars body))%nat /\
  (n = length (chars body) <-> forallb Str.isdigit (chars body) = true) /\
  (n = length (chars body) ->
   v = fold_left (fun a c => a * 10 + (Z.of_nat (nat_of_ascii c) - 48)) (chars body) acc).
Proof.
  induction body as [| c rest IH]; intros acc v n; simpl.
  - intros [= <- <-]. done.
  - destruct (Str.isdigit c); simpl.
    + destruct (scan_digits (acc * 10 + digit_value c) rest) as [v' n'] eqn:E.
      intros [= <- <-]. destruct (IH _ _ _ E) as (Hle & Hall & Hval).
      split; [lia |]. split.
      * rewrite <- Hall. split; intros ?; lia.
      * intros Hn. apply Hval. lia.
    + intros [= <- <-]. split; [lia |]. split; [| done]. split; done.
Qed.

(** What [TryParseInt64] makes of the result of [strtoll], for a text
    made of [sign_len] sign characters and of [body]. *)
Lemma strtoll_checks negative sign_len body size_ :
  size_ = (sign_len + length (chars body))%nat ->
  (let '(magnitude, ndigits) := scan_digits 0 body in
   let r :=
     if (ndigits =? 0)%nat then MkStrtoll 0 0 false
     else
       let exact := if negative : bool then - magnitude else magnitude in
       let end_ := (0 + sign_len + ndigits)%nat in
       if exact >? LLONG_MAX then MkStrtoll LLONG_MAX end_ true
       else if exact <? LLONG_MIN then MkStrtoll LLONG_MIN end_ true
       else MkStrtoll exact end_ false in
   if ll_erange r || (ll_end r =? 0)%nat || negb (ll_end r =? size_)%nat
   then None else Some (ll_parsed r))
  = if forallb Str.isdigit (chars body) && negb (bool_decide (chars body = []))
    then
      let n := if negative then - decimal (chars body) else decimal (chars body) in
      if (- 2 ^ 63 <=? n) && (n <? 2 ^ 63) then Some n else None
    else None.
Proof.
  intros ->. destruct (scan_digits 0 body) as [v n] eqn:E.
  destruct (scan_digits_spec _ _ _ _ E) as (Hle & Hall & Hval).
  destruct (Nat.eqb_spec n 0) as [-> | Hn0].
  - simpl. destruct (chars body) as [| c cs] eqn:Ec.
    + by rewrite andb_false_r.
    + destruct (forallb Str.isdigit (c :: cs)) eqn:Ef; [| done].
      destruct Hall as [_ Hall]. specialize (Hall eq_refl). done.
  - destruct (decide (n = length (chars body))) as [Hn | Hn].
    + rewrite (proj1 Hall Hn).
      rewrite (bool_decide_eq_false_2 (chars body = [])); cycle 1.
      { intros Eb. rewrite Eb in Hn. simpl in Hn. done. }
      simpl andb. cbv zeta. fold (decimal (chars body)) in Hval.
      rewrite (Hval Hn). set (x := if negative then _ else _).
      unfold LLONG_MAX, LLONG_MIN. rewrite Z.gtb_ltb.
      change (0 + sign_len + n)%nat with (sign_len + n)%nat.
      assert ((sign_len + n =? sign_len + length (chars body))%nat = true) as Hend
        by (apply Nat.eqb_eq; lia).
      assert ((sign_len + n =? 0)%nat = false) as Hend0 by (apply Nat.eqb_neq; lia).
      destruct (Z.ltb_spec 9223372036854775807 x) as [Hhi | Hhi]; simpl.
      * destruct (Z.leb_spec (- 2 ^ 63) x), (Z.ltb_spec x (2 ^ 63)); simpl; try done; lia.
      * destruct (Z.ltb_spec x (-9223372036854775808)) as [Hlo | Hlo]; simpl.
        -- destruct (Z.leb_spec (- 2 ^ 63) x); simpl; [lia | done].
        -- rewrite Hend, Hend0. simpl.
           destruct (Z.leb_spec (- 2 ^ 63) x), (Z.ltb_spec x (2 ^ 63)); simpl; try done; lia.
    + assert (forallb Str.isdigit (chars body) = false) as ->.
      { destruct (forallb Str.isdigit (chars body)); [| done].
        destruct Hn. by apply Hall. }
      simpl andb. cbv zeta.
      change (0 + sign_len + n)%nat with (sign_len + n)%nat.
      assert ((sign_len + n =? sign_len + length (chars body))%nat = false) as Hend
        by (apply Nat.eqb_neq; lia).
      destruct (_ >? LLONG_MAX); [done |].
      destruct (_ <? LLONG_MIN); [done |].
      simpl. by rewrite Hend, orb_true_r.
Qed.

End IntegerFacts.

Section Scalars.

Variable strtod : string -> strtod_result.

Import ScalarSpec ScalarFacts IntegerFacts.

(** On a text without leading white space the integer conversion of
    the code accepts the signed decimal integers of 64 bits that are
    the entire text, and nothing else. *)
Lemma TryParseInt64_eq text :
  text <> EmptyString -> trim_start text = O -> TryParseInt64 text = parse_int64 text.
Proof.
  intros Hne Hstart. unfold TryParseInt64, parse_int64.
  rewrite hex_prefixed_eq. destruct text as [| c rest]; [done |].
  change (Str.empty (String c rest)) with false. cbv iota.
  destruct (looks_hex (String c rest)); [done |].
  unfold strtoll. rewrite Hstart.
  change (Str.substr_from 0 (String c rest)) with (String c rest).
  change (starts_with "-" (String c rest)) with (Ascii.eqb c "-").
  change (starts_with "+" (String c rest)) with (Ascii.eqb c "+").
  change (chars (String c rest)) with (c :: chars rest). cbv iota beta.
  destruct (Ascii.eqb c "-"); [| destruct (Ascii.eqb c "+")]; cbv iota beta zeta.
  - change (Str.substr_from 1 (String c rest)) with rest.
    pose proof (strtoll_checks true 1 rest (Str.size (String c rest))
                  (f_equal S (size_chars rest))) as H.
    destruct (scan_digits 0 rest). exact H.
  - change (Str.substr_from 1 (String c rest)) with rest.
    pose proof (strtoll_checks false 1 rest (Str.size (String c rest))
                  (f_equal S (size_chars rest))) as H.
    destruct (scan_digits 0 rest). exact H.
  - change (Str.substr_from 0 (String c rest)) with (String c rest).
    pose proof (strtoll_checks false 0 (String c rest) (Str.size (String c rest))
                  (size_chars (String c rest))) as H.
    change (chars (String c rest)) with (c :: chars rest) in H.
    destruct (scan_digits 0 (String c rest)). exact H.
Qed.



(** C9. The text made of two double quotes is the empty string, not
    null: null is what the empty text gives, and no other text. *)
Theorem two_quotes_give_empty_string :
  ParseScalarToJs strtod (String Str.DQUOTE (String Str.DQUOTE EmptyString))
    = JsString EmptyString /\
  ParseScalarToJs strtod EmptyString = JsNull /\
  (forall text, ParseScalarToJs strtod text = JsNull <-> text = EmptyString).
Proof.
  split; [reflexivity |]. split; [reflexivity |].
  intros text. split; [| by intros ->].
  destruct text as [| c rest]; [done |].
  unfold ParseScalarToJs. change (Str.empty (String c rest)) with false.
  repeat case_match; done.
Qed.

End Scalars.

(** ** Nested blocks *)

Section Nesting.

Variable strtod : string -> strtod_result.

(** The shape the stack has between two lines: the root context
    alone, or one context above it whose indentation is that of the
    next line that is not blank. *)
Definition shallow_stack (root : handle) (rest : list string) (stk : list Context) : Prop :=
  stk = [root_context root] \/
  exists c, stk = [c; root_context root] /\
            (found (peek_loop rest) = true -> indent c = next_indent (peek_loop rest)).

Lemma shallow_stack_pop root raw rest stk :
  Str.empty (Trim raw) = false ->
  shallow_stack root (raw :: rest) stk ->
  pop_phase (LeadingIndent raw) stk = [root_context root].
Proof.
  intros Hraw [-> | (c & -> & Hc)]; [done |].
  simpl in Hc. rewrite Hraw in Hc. simpl in Hc. specialize (Hc eq_refl).
  destruct c as [n k h]. simpl in Hc. subst n. by rewrite child_context_popped.
Qed.

Lemma loop_body_shallow root lines i raw st st' :
  shallow_stack root (drop i lines) (stack st) ->
  lines !! i = Some raw ->
  loop_body strtod lines i raw st = Some st' ->
  shallow_stack root (drop (S i) lines) (stack st').
Proof.
  intros Hsh Hline. rewrite (drop_S _ _ _ Hline) in Hsh.
  unfold loop_body. destruct (Str.empty (Trim raw)) eqn:Hraw.
  { intros [= <-]. destruct Hsh as [-> | (c & -> & Hc)]; [by left |].
    right. exists c. split; [done |]. simpl in Hc. by rewrite Hraw in Hc. }
  rewrite (shallow_stack_pop _ _ _ _ Hraw Hsh). cbn [is_array root_context negb].
  destruct (starts_with "-" (Trim raw)); [intros [= <-]; by left |].
  destruct (Str.find ":" (Trim raw)) as [colon |]; [| intros [= <-]; by left].
  destruct (Str.empty (Trim (Str.substr_from (colon + 1) (Trim raw)))).
  - rewrite create_child_eq.
    destruct (SetObjectProperty _ _ _ _) as [env2 |]; [| done].
    intros [= <-]. right. eexists. split; [done |]. simpl.
    unfold child_indent, PeekNextLine. rewrite Nat.add_1_r. by intros ->.
  - destruct (SetObjectProperty _ _ _ _) as [env1 |]; [| done].
    intros [= <-]. by left.
Qed.

Lemma for_loop_shallow root lines todo : forall i st st',
  todo = drop i lines ->
  shallow_stack root (drop i lines) (stack st) ->
  forall k, for_loop strtod lines i (take k todo) st = Some st' ->
  shallow_stack root (drop (i + k) lines) (stack st').
Proof.
  induction todo as [| raw todo IH]; intros i st st' Htodo Hsh k.
  - rewrite take_nil. intros [= <-].
    rewrite <- drop_drop. rewrite <- Htodo in *. by rewrite drop_nil.
  - destruct k as [| k]; [intros [= <-]; by rewrite Nat.add_0_r |].
    assert (lines !! i = Some raw) as Hline.
    { rewrite <- (Nat.add_0_r i), <- lookup_drop, <- Htodo. done. }
    rewrite firstn_cons. simpl.
    destruct (loop_body strtod lines i raw st) as [st1 |] eqn:E1; [| done]. simpl.
    intros Hrun. replace (i + S k)%nat with (S i + k)%nat by lia.
    eapply IH; [| | exact Hrun].
    + rewrite (drop_S _ _ _ Hline) in Htodo. by injection Htodo.
    + by eapply loop_body_shallow.
Qed.

(** Every line that is not blank is read with the root object as its
    current container: the context pushed for a child container has
    the indentation of the very line that should fill it, and the pop
    phase of that line removes it. *)
Lemma root_is_always_current env session k raw st :
  let lines := SplitLines session in
  lines !! k = Some raw ->
  Str.empty (Trim raw) = false ->
  for_loop strtod lines 0 (take k lines) (initial_state env) = Some st ->
  pop_phase (LeadingIndent raw) (stack st) = [root_context (length env)].
Proof.
  intros lines Hline Hraw Hrun.
  apply (shallow_stack_pop _ raw (drop (S k) lines)); [done |].
  rewrite <- (drop_S _ _ _ Hline).
  apply (for_loop_shallow (length env) lines lines 0 (initial_state env) st eq_refl);
    [by left | exact Hrun].
Qed.

(** The document of the specification with two drivers. *)
Definition quote (text : string) : string :=
  String Str.DQUOTE (text ++ String Str.DQUOTE EmptyString).

Definition drivers_document : string :=
  Lines.join_lf
    [ "Drivers:";
      "- CarIdx: 0";
      "  UserName: " ++ quote "Bob";
      "- CarIdx: 1";
      "  UserName: " ++ quote "Sam" ].

Definition drivers_expected : Value :=
  Object
    [("Drivers",
      Array [ Object [("CarIdx", Int64 0); ("UserName", Str "Bob")];
              Object [("CarIdx", Int64 1); ("UserName", Str "Sam")] ])].

(** C6. What the code makes of the drivers document is not the tree
    the specification gives: the array opened by [Drivers:] stays
    empty, both dash lines are skipped, and the two [UserName] lines
    write into the root object one after the other. *)
Theorem drivers_document_is_flattened env :
  parse_tree strtod env drivers_document
    = Some (Object [("Drivers", Array []); ("UserName", Str "Sam")]) /\
  parse_tree strtod env drivers_document <> Some drivers_expected.
Proof.
  assert (parse_tree strtod env drivers_document
          = Some (Object [("Drivers", Array []); ("UserName", Str "Sam")])) as H
    by (rewrite parse_tree_env; by vm_compute).
  split; [exact H |]. rewrite H. discriminate.
Qed.

End Nesting.

(** ** The statements at concrete inputs *)

(** A C library whose [strtod] converts nothing. *)
Definition strtod_none (nptr : string) : strtod_result :=
  MkStrtod (S754_zero false) 0 false.

(** A blank document: a space, a line feed, a tabulation. *)
Definition blank_document : string :=
  String Str.SPACE (String Str.LF (String Str.TAB EmptyString)).

Lemma parse_root_is_object_witness :
  Forall (fun line => Trim line = EmptyString) (SplitLines blank_document) /\
  parse_tree strtod_none [] blank_document = Some (Object []).
Proof.
  assert (Forall (fun line => Trim line = EmptyString) (SplitLines blank_document)) as H
    by (repeat constructor).
  split; [exact H |].
  exact (proj2 (parse_root_is_object strtod_none [] blank_document) H).
Defined.


Lemma leading_colon_sets_empty_key_witness :
  exists st',
    loop_body strtod_none [": 5"] 0 ": 5" (initial_state []) = Some st' /\
    heap st' !! 0%nat = Some (JsObject [(EmptyString, JsInt64 5)]).
Proof.
  destruct (proj1 (leading_colon_sets_empty_key strtod_none [": 5"] 0 ": 5"
                     (initial_state []) (root_context 0) [] []
                     eq_refl eq_refl eq_refl eq_refl)) as (st' & Hrun & Hcell).
  exists st'. split; [exact Hrun | exact Hcell].
Defined.

(** * Further properties of the text functions *)

(** ** Texts as lists of characters *)

Module TextFacts.

Import ScalarSpec ScalarFacts.

Lemma chars_append a b : chars (a ++ b) = (chars a ++ chars b)%list.
Proof. induction a as [| c a IH]; simpl; [done | by rewrite IH]. Qed.

Lemma chars_inj a b : chars a = chars b -> a = b.
Proof.
  intros H. rewrite <- (string_of_list_ascii_of_string a), <- (string_of_list_ascii_of_string b).
  unfold chars in H. by rewrite H.
Qed.

Lemma chars_prefix n value : chars (Str.prefix n value) = take n (chars value).
Proof.
  revert value. induction n as [| n IH]; intros [| c rest]; simpl; try done.
  by rewrite IH.
Qed.

Lemma chars_substr_from n value : chars (Str.substr_from n value) = drop n (chars value).
Proof.
  revert value. induction n as [| n IH]; intros value.
  - by destruct value.
  - destruct value as [| c rest]; [done |]. apply IH.
Qed.

Lemma chars_substr pos n value :
  chars (Str.substr pos n value) = take n (drop pos (chars value)).
Proof. unfold Str.substr. by rewrite chars_prefix, chars_substr_from. Qed.

Lemma at_lookup value i c : chars value !! i = Some c -> Str.at_ value i = c.
Proof.
  revert i. induction value as [| c' rest IH]; intros i; [done |].
  destruct i as [| i]; simpl; [by intros [= ->] | apply IH].
Qed.

(** Only white space. *)
Definition all_space (cs : list ascii) : Prop := Forall (fun c => Str.isspace c = true) cs.

Lemma trim_start_take value : all_space (take (trim_start value) (chars value)).
Proof.
  induction value as [| c rest IH]; simpl; [constructor |].
  destruct (Str.isspace c) eqn:E; simpl; [by constructor | constructor].
Qed.

Lemma trim_start_le value : (trim_start value <= length (chars value))%nat.
Proof.
  induction value as [| c rest IH]; simpl; [lia |].
  destruct (Str.isspace c); simpl; lia.
Qed.

Lemma trim_start_stop value c :
  chars value !! trim_start value = Some c -> Str.isspace c = false.
Proof.
  induction value as [| c' rest IH]; simpl; [done |].
  destruct (Str.isspace c') eqn:E; simpl; [apply IH | by intros [= <-]].
Qed.

Lemma trim_start_all_space value :
  all_space (chars value) -> trim_start value = length (chars value).
Proof.
  induction value as [| c rest IH]; simpl; [done |].
  intros H. inversion H as [| ? ? Hc Hrest]; subst. rewrite Hc. by rewrite IH.
Qed.

Lemma trim_start_full value :
  trim_start value = length (chars value) -> all_space (chars value).
Proof.
  intros H. pose proof (trim_start_take value) as Ht.
  by rewrite H, firstn_all in Ht.
Qed.

(** The second loop of [Trim] stops between [start] and [end_], on a
    character that is not white space or on [start], and has only seen
    white space. *)
Lemma trim_end_spec value start : forall end_,
  (start <= end_ <= length (chars value))%nat ->
  let r := trim_end value start end_ in
  (start <= r <= end_)%nat /\
  all_space (take (end_ - r) (drop r (chars value))) /\
  (r = start \/ exists c, chars value !! (r - 1)%nat = Some c /\ Str.isspace c = false).
Proof.
  induction end_ as [| e IH]; intros Hle; simpl.
  - split; [lia |]. split; [constructor |]. left. lia.
  - destruct (Nat.ltb_spec start (S e)) as [Hlt | Hge]; simpl.
    + destruct (lookup_lt_is_Some_2 (chars value) e ltac:(lia)) as [c Hc].
      rewrite (at_lookup _ _ _ Hc).
      destruct (Str.isspace c) eqn:Ec.
      * destruct (IH ltac:(lia)) as (Hr & Hsp & Hstop). split; [lia |]. split; [| done].
        set (r := trim_end value start e) in *.
        replace (S e - r)%nat with ((e - r) + 1)%nat by lia.
        rewrite <- take_take_drop.
        apply Forall_app. split; [done |].
        rewrite drop_drop. replace (r + (e - r))%nat with e by lia.
        rewrite (take_S_r _ _ c) by (by rewrite lookup_drop, Nat.add_0_r).
        repeat constructor. done.
      * split; [lia |]. rewrite Nat.sub_diag. split; [constructor |].
        right. exists c. simpl. by rewrite Nat.sub_0_r.
    + split; [lia |]. rewrite Nat.sub_diag. split; [constructor |]. left. lia.
Qed.

End TextFacts.

(** ** [Trim] *)

Module TrimFacts.

Import ScalarSpec ScalarFacts TextFacts.

(** The two outcomes of [Trim]: the text is white space and the result
    is empty, or the result is the part of the text from its first to
    its last character that is not white space. *)
Lemma Trim_cases value :
  let cs := chars value in
  (all_space cs /\ Trim value = EmptyString) \/
  (exists start r first_ last_,
      (start < r <= length cs)%nat /\
      chars (Trim value) = take (r - start) (drop start cs) /\
      all_space (take start cs) /\ all_space (drop r cs) /\
      cs !! start = Some first_ /\ Str.isspace first_ = false /\
      cs !! (r - 1)%nat = Some last_ /\ Str.isspace last_ = false).
Proof.
  intros cs. unfold Trim. rewrite size_chars. fold cs.
  destruct (Nat.eqb_spec (trim_start value) (length cs)) as [Hall | Hsome].
  - left. split; [by apply trim_start_full | done].
  - right. pose proof (trim_start_le value) as Hle. fold cs in Hle.
    set (start := trim_start value) in *.
    destruct (lookup_lt_is_Some_2 cs start ltac:(lia)) as [c0 Hc0].
    pose proof (trim_start_stop value c0 Hc0) as Hs0.
    destruct (trim_end_spec value start (length cs) ltac:(unfold cs in *; lia))
      as (Hr & Hsp & Hstop).
    fold cs in Hsp, Hstop. set (r := trim_end value start (length cs)) in *.
    rewrite take_ge in Hsp by (rewrite length_drop; lia).
    assert (start < r)%nat as Hlt.
    { destruct (decide (r = start)) as [E | E]; [| lia]. exfalso.
      rewrite E in Hsp. unfold all_space in Hsp. rewrite Forall_forall in Hsp.
      specialize (Hsp c0). rewrite Hs0 in Hsp. discriminate Hsp.
      apply list_elem_of_lookup. exists 0%nat. by rewrite lookup_drop, Nat.add_0_r. }
    destruct Hstop as [-> | (c1 & Hc1 & Hs1)]; [lia |].
    exists start, r, c0, c1. split; [lia |]. split; [apply chars_substr |].
    split; [apply trim_start_take |]. done.
Qed.

(** A text whose first and last characters are not white space is left
    as it is. *)
Lemma Trim_fixed text :
  text <> EmptyString ->
  Str.isspace (Str.front text) = false -> Str.isspace (Str.back text) = false ->
  Trim text = text.
Proof.
  intros Hne Hfront Hback. unfold Trim.
  assert (trim_start text = O) as ->.
  { destruct text as [| c rest]; [done |]. unfold Str.front in Hfront. simpl in *.
    by rewrite Hfront. }
  destruct text as [| c rest]; [done |].
  assert (Str.isspace (Str.at_ (String c rest) (String.length rest)) = false) as Hb.
  { unfold Str.back, Str.size in Hback. simpl String.length in Hback.
    by rewrite Nat.sub_succ, Nat.sub_0_r in Hback. }
  change (Str.size (String c rest)) with (S (String.length rest)).
  change (0 =? S (String.length rest))%nat with false. cbv iota zeta.
  cbn [trim_end]. rewrite Hb, andb_false_r.
  apply chars_inj. rewrite chars_substr, drop_0. apply take_ge.
  rewrite <- size_chars. unfold Str.size. simpl. lia.
Qed.

End TrimFacts.

Section TrimProperties.

Import ScalarSpec ScalarFacts TextFacts TrimFacts.

Lemma Trim_result_ends value :
  Trim value <> EmptyString ->
  Str.isspace (Str.front (Trim value)) = false /\
  Str.isspace (Str.back (Trim value)) = false.
Proof.
  destruct (Trim_cases value)
    as [[Hall Hempty] | (start & r & c0 & c1 & Hr & Hcs & Hb & Ha & Hc0 & Hs0 & Hc1 & Hs1)];
    [by rewrite Hempty |].
  intros _.
  assert (length (chars (Trim value)) = (r - start)%nat) as Hlen
    by (rewrite Hcs, length_take, length_drop; lia).
  unfold Str.front, Str.back. rewrite size_chars, Hlen. split.
  - rewrite (at_lookup _ _ c0); [done |].
    rewrite Hcs, lookup_take_lt, lookup_drop, Nat.add_0_r by lia. done.
  - rewrite (at_lookup _ _ c1); [done |].
    rewrite Hcs, lookup_take_lt, lookup_drop by lia.
    by replace (start + (r - start - 1))%nat with (r - 1)%nat by lia.
Qed.

(** X1. [Trim] removes the white space at both ends, all of it and
    nothing else: the text is white space, then the trimmed text, then
    white space, and the trimmed text, when it is not empty, neither
    begins nor ends with white space. *)
Theorem Trim_decomposition value :
  exists before after,
    value = before ++ Trim value ++ after /\
    all_space (chars before) /\ all_space (chars after) /\
    (Trim value = EmptyString \/
     (Str.isspace (Str.front (Trim value)) = false /\
      Str.isspace (Str.back (Trim value)) = false)).
Proof.
  assert (Trim value = EmptyString \/
          (Str.isspace (Str.front (Trim value)) = false /\
           Str.isspace (Str.back (Trim value)) = false)) as Hends.
  { destruct (Trim value) eqn:E; [by left | right].
    rewrite <- E. apply Trim_result_ends. by rewrite E. }
  destruct (Trim_cases value) as [[Hall Hempty] | (start & r & c0 & c1 & Hr & Hcs & Hb & Ha & _)].
  - exists value, EmptyString. rewrite Hempty in *.
    split; [| split; [done | split; [constructor | done]]].
    simpl. by rewrite Lines.append_nil_r.
  - exists (Str.prefix start value), (Str.substr_from r value).
    rewrite chars_prefix, chars_substr_from. split; [| done].
    apply chars_inj. rewrite !chars_append, Hcs, chars_prefix, chars_substr_from.
    rewrite app_assoc, take_take_drop.
    replace (start + (r - start))%nat with r by lia. by rewrite take_drop.
Qed.

(** X2. The trimmed text is empty exactly when the text is white space;
    otherwise it begins and ends with a character that is not white
    space. *)
Theorem Trim_ends value :
  (Trim value = EmptyString <-> all_space (chars value)) /\
  (Trim value <> EmptyString ->
   Str.isspace (Str.front (Trim value)) = false /\
   Str.isspace (Str.back (Trim value)) = false).
Proof.
  destruct (Trim_cases value)
    as [[Hall Hempty] | (start & r & c0 & c1 & Hr & Hcs & Hb & Ha & Hc0 & Hs0 & Hc1 & Hs1)].
  - split; [done |]. by rewrite Hempty.
  - assert (length (chars (Trim value)) = (r - start)%nat) as Hlen
      by (rewrite Hcs, length_take, length_drop; lia).
    assert (Trim value <> EmptyString) as Hne.
    { intros E. rewrite E in Hlen. simpl in Hlen. lia. }
    split.
    + split; [done |]. intros Hall. exfalso.
      unfold all_space in Hall. rewrite Forall_forall in Hall.
      specialize (Hall c0). rewrite Hs0 in Hall. discriminate Hall.
      apply list_elem_of_lookup. by exists start.
    + intros _. unfold Str.front, Str.back. rewrite size_chars, Hlen. split.
      * rewrite (at_lookup _ _ c0); [done |].
        rewrite Hcs, lookup_take_lt, lookup_drop, Nat.add_0_r by lia. done.
      * rewrite (at_lookup _ _ c1); [done |].
        rewrite Hcs, lookup_take_lt, lookup_drop by lia.
        by replace (start + (r - start - 1))%nat with (r - 1)%nat by lia.
Qed.

(** X3. Trimming twice is trimming once. *)
Theorem Trim_idempotent value : Trim (Trim value) = Trim value.
Proof.
  destruct (Trim_cases value)
    as [[Hall Hempty] | (start & r & c0 & c1 & Hr & Hcs & Hb & Ha & Hc0 & Hs0 & Hc1 & Hs1)].
  - by rewrite Hempty.
  - assert (length (chars (Trim value)) = (r - start)%nat) as Hlen
      by (rewrite Hcs, length_take, length_drop; lia).
    apply Trim_fixed.
    + intros E. rewrite E in Hlen. simpl in Hlen. lia.
    + unfold Str.front. rewrite (at_lookup _ _ c0); [done |].
      rewrite Hcs, lookup_take_lt, lookup_drop, Nat.add_0_r by lia. done.
    + unfold Str.back. rewrite size_chars, Hlen, (at_lookup _ _ c1); [done |].
      rewrite Hcs, lookup_take_lt, lookup_drop by lia.
      by replace (start + (r - start - 1))%nat with (r - 1)%nat by lia.
Qed.

End TrimProperties.

(** ** [LeadingIndent] and [PeekNextLine] *)

Section IndentProperties.

Import ScalarSpec ScalarFacts TextFacts.

Lemma LeadingIndent_cons c rest :
  LeadingIndent (String c rest) =
    if Ascii.eqb c Str.SPACE || Ascii.eqb c Str.TAB then LeadingIndent rest + 1 else 0.
Proof. reflexivity. Qed.

(** X4. The indentation of a line is the length of its longest prefix
    made of spaces and tabulations; it is at most the number of
    characters [Trim] removes in front, which is at most the size. *)
Theorem LeadingIndent_spec value :
  exists blanks rest,
    value = blanks ++ rest /\
    Forall (fun c => c = Str.SPACE \/ c = Str.TAB) (chars blanks) /\
    (forall c rest', rest = String c rest' -> c <> Str.SPACE /\ c <> Str.TAB) /\
    LeadingIndent value = Z.of_nat (Str.size blanks) /\
    0 <= LeadingIndent value <= Z.of_nat (trim_start value) /\
    (trim_start value <= Str.size value)%nat.
Proof.
  induction value as [| c value IH].
  - exists EmptyString, EmptyString. simpl. repeat split; try done; try lia.
  - destruct IH as (blanks & rest & Hv & Hb & Hr & Hi & Hle & Hsz).
    rewrite LeadingIndent_cons. simpl trim_start.
    destruct (Ascii.eqb_spec c Str.SPACE) as [-> | Hsp]; simpl orb.
    + exists (String Str.SPACE blanks), rest. simpl. rewrite <- Hv.
      split; [done |]. split; [constructor; [by left | done] |]. split; [done |].
      change (Str.isspace Str.SPACE) with true. unfold Str.size in *. simpl. lia.
    + destruct (Ascii.eqb_spec c Str.TAB) as [-> | Htab].
      * exists (String Str.TAB blanks), rest. simpl. rewrite <- Hv.
        split; [done |]. split; [constructor; [by right | done] |]. split; [done |].
        change (Str.isspace Str.TAB) with true. unfold Str.size in *. simpl. lia.
      * exists EmptyString, (String c value). simpl.
        split; [done |]. split; [constructor |]. split; [by intros ? ? [= <- <-] |].
        unfold Str.size in *. simpl. destruct (Str.isspace c); simpl; lia.
Qed.

Lemma peek_loop_not_found rest :
  found (peek_loop rest) = false ->
  Forall (fun line => Trim line = EmptyString) rest /\
  peek_loop rest = MkNextLineInfo false 0 false.
Proof.
  induction rest as [| line rest IH]; simpl; [by split |].
  destruct (Str.empty (Trim line)) eqn:E; simpl; [| done].
  intros H. destruct (IH H) as [Hall Hp]. split; [| done].
  constructor; [| done]. by destruct (Trim line).
Qed.

(** X5. The lookahead looks at the lines from [start] on and at no
    other: it reports the first of them that is not blank, with its
    indentation and whether its trimmed text starts with a dash; when
    all of them are blank, and so when [start] is past the last line, it
    reports that nothing was found. *)
Theorem PeekNextLine_spec lines start :
  let ni := PeekNextLine lines start in
  ((length lines <= start)%nat -> found ni = false) /\
  (found ni = false ->
   ni = MkNextLineInfo false 0 false /\
   forall j line, (start <= j)%nat -> lines !! j = Some line -> Trim line = EmptyString) /\
  (found ni = true ->
   exists j line,
     (start <= j)%nat /\ lines !! j = Some line /\ Trim line <> EmptyString /\
     (forall k l, (start <= k < j)%nat -> lines !! k = Some l -> Trim l = EmptyString) /\
     ni = MkNextLineInfo true (LeadingIndent line) (starts_with "-" (Trim line))).
Proof.
  intros ni. unfold ni, PeekNextLine. split; [| split].
  - intros Hlen. by rewrite drop_ge.
  - intros Hnf. destruct (peek_loop_not_found _ Hnf) as [Hall Hp]. split; [done |].
    intros j line Hj Hline. rewrite Forall_forall in Hall. apply Hall.
    apply list_elem_of_lookup. exists (j - start)%nat.
    rewrite lookup_drop. by replace (start + (j - start))%nat with j by lia.
  - intros Hf. destruct (peek_loop_found _ Hf) as (blanks & line & rest' & Hd & Hb & Hn & Hp).
    exists (start + length blanks)%nat, line.
    split; [lia |]. split; [| split; [| split; [| done]]].
    + rewrite <- lookup_drop, Hd. by apply list_lookup_middle.
    + intros E. by rewrite E in Hn.
    + intros k l Hk Hl. rewrite Forall_forall in Hb. apply Hb.
      apply list_elem_of_lookup. exists (k - start)%nat.
      assert (drop start lines !! (k - start)%nat = Some l) as Hl'.
      { rewrite lookup_drop. by replace (start + (k - start))%nat with k by lia. }
      rewrite Hd, lookup_app_l in Hl' by lia. done.
Qed.

End IndentProperties.

(** * What the tree builder computes *)

(** The scalar a [napi_value] that is not a handle stands for. *)
Definition scalar_value (v : JsValue) : Value :=
  match v with
  | JsNull => Null
  | JsBool b => Bool b
  | JsInt64 n => Int64 n
  | JsDouble d => Double d
  | JsString s => Str s
  | JsRef _ => Null
  end.

(** [set_prop] on the entries of an [Object]. *)
Fixpoint set_entry (key : string) (value : Value) (entries : list (string * Value))
  : list (string * Value) :=
  match entries with
  | [] => [(key, value)]
  | (k, x) :: rest =>
      if String.eqb k key then (k, value) :: rest
      else (k, x) :: set_entry key value rest
  end.

(** The entry a line contributes when it is read in the root object: a
    line without dash that holds a colon gives its key the scalar that
    follows the colon, or an empty container, an array when the next
    line that is not blank starts with a dash. *)
Definition line_entry (strtod : string -> strtod_result) (lines : list string) (i : nat)
    (raw_line : string) : option (string * Value) :=
  let trimmed := Trim raw_line in
  if Str.empty trimmed then None
  else if starts_with "-" trimmed then None
  else
    match Str.find ":" trimmed with
    | None => None
    | Some colon =>
        let key := Trim (Str.substr 0 colon trimmed) in
        let raw_value := Trim (Str.substr_from (colon + 1) trimmed) in
        if Str.empty raw_value then
          let next_info := PeekNextLine lines (i + 1) in
          Some (key, if found next_info && starts_with_dash next_info
                     then Array [] else Object [])
        else Some (key, scalar_value (ParseScalarToJs strtod raw_value))
    end.

Definition apply_entry (entry : option (string * Value)) (entries : list (string * Value))
  : list (string * Value) :=
  match entry with
  | Some (key, value) => set_entry key value entries
  | None => entries
  end.

(** The entries of the root object after the lines [todo = lines[i..]]. *)
Fixpoint root_entries (strtod : string -> strtod_result) (lines : list string) (i : nat)
    (todo : list string) (entries : list (string * Value)) : list (string * Value) :=
  match todo with
  | [] => entries
  | raw_line :: todo' =>
      root_entries strtod lines (S i) todo'
        (apply_entry (line_entry strtod lines i raw_line) entries)
  end.

(** A value of the store read one level deep: a container is read as
    empty. *)
Definition shallow_read (env : Heap) (v : JsValue) : Value :=
  match v with
  | JsRef a =>
      match env !! a with
      | Some (JsArray _) => Array []
      | _ => Object []
      end
  | _ => scalar_value v
  end.

Definition root_view (env : Heap) : list (string * Value) :=
  match env !! 0%nat with
  | Some (JsObject props) => prod_map id (shallow_read env) <$> props
  | _ => []
  end.

Lemma set_prop_fmap (f : JsValue -> Value) key v props :
  prod_map id f <$> set_prop key v props = set_entry key (f v) (prod_map id f <$> props).
Proof.
  induction props as [| [k x] rest IH]; [done |].
  rewrite fmap_cons. unfold prod_map at 2. cbn [set_prop set_entry fst snd id].
  destruct (String.eqb k key); [done |].
  rewrite fmap_cons. f_equal. exact IH.
Qed.

Lemma mapM_all_Some {A B} (g : A -> option B) (f : A -> B) l :
  (forall x, x ∈ l -> g x = Some (f x)) -> mapM g l = Some (f <$> l).
Proof.
  intros H. apply mapM_Some. apply Forall2_fmap_r, Forall_Forall2_diag.
  by apply Forall_forall.
Qed.

Section Flat.

Variable strtod : string -> strtod_result.

(** Between two lines of a parse in the empty store: the loop invariant,
    a stack of at most one context above the root, and containers other
    than the root that are all empty. *)
Record flat_inv (rest : list string) (st : State) : Prop := MkFlat {
  fi_inv : invariant 0 st;
  fi_stack : shallow_stack 0 rest (stack st);
  fi_empty : forall a cell, a <> 0%nat -> heap st !! a = Some cell -> cell_values cell = []
}.

Lemma invariant_root st :
  invariant 0 st -> exists props, heap st !! 0%nat = Some (JsObject props).
Proof.
  intros [Hok Hroot _].
  assert (ctx_ok (heap st) (root_context 0) = true) as Hctx.
  { unfold stack_ok in Hok. rewrite forallb_forall in Hok. apply Hok.
    apply list_elem_of_In, last_Some_elem_of. exact Hroot. }
  unfold ctx_ok in Hctx. simpl in Hctx.
  destruct (heap st !! 0%nat) as [[props | elems] |]; try done. eauto.
Qed.

(** What a line read in the root object does to the store. *)
Lemma loop_body_root_store lines i raw st st' props :
  heap st !! 0%nat = Some (JsObject props) ->
  pop_phase (LeadingIndent raw) (stack st) = [root_context 0] \/ Str.empty (Trim raw) = true ->
  loop_body strtod lines i raw st = Some st' ->
  (line_entry strtod lines i raw = None /\ heap st' = heap st) \/
  (exists key x ext,
      line_entry strtod lines i raw = Some (key, shallow_read (heap st') x) /\
      heap st' = <[0%nat := JsObject (set_prop key x props)]> (heap st ++ ext)%list /\
      Forall (fun c => cell_values c = []) ext /\
      value_above (length (heap st ++ ext)%list) 0 x).
Proof.
  intros Hroot Hpop. unfold loop_body, line_entry.
  destruct (Str.empty (Trim raw)) eqn:Hraw; [intros [= <-]; by left |].
  destruct Hpop as [-> | ?]; [| done]. cbn [is_array root_context negb container].
  destruct (starts_with "-" (Trim raw)); [intros [= <-]; by left |].
  destruct (Str.find ":" (Trim raw)) as [colon |]; [| intros [= <-]; by left].
  pose proof (lookup_lt_Some _ _ _ Hroot) as Hlt.
  destruct (Str.empty (Trim (Str.substr_from (colon + 1) (Trim raw)))).
  - rewrite create_child_eq. unfold SetObjectProperty.
    rewrite (lookup_app_l_Some _ _ _ _ Hroot). simpl. intros [= <-]. right.
    eexists _, (JsRef (length (heap st))), [_]. simpl.
    split; [| split; [done | split]].
    + rewrite list_lookup_insert_ne by lia.
      rewrite lookup_app_r, Nat.sub_diag by lia. simpl.
      by destruct (found _ && starts_with_dash _).
    + constructor; [| constructor]. by destruct (found _ && starts_with_dash _).
    + rewrite length_app. simpl. lia.
  - unfold SetObjectProperty. rewrite Hroot. simpl. intros [= <-]. right.
    eexists _, (ParseScalarToJs strtod _), []. rewrite app_nil_r. simpl.
    split; [| split; [done | split; [constructor | apply ParseScalarToJs_above]]].
    f_equal. f_equal. unfold shallow_read.
    pose proof (ParseScalarToJs_above strtod
                  (Trim (Str.substr_from (colon + 1) (Trim raw))) 0 0) as Habove.
    destruct (ParseScalarToJs strtod _); try done. simpl in Habove. lia.
Qed.

Lemma loop_body_flat lines i raw st :
  flat_inv (drop i lines) st -> lines !! i = Some raw ->
  exists st', loop_body strtod lines i raw st = Some st' /\
              flat_inv (drop (S i) lines) st' /\
              root_view (heap st')
              = apply_entry (line_entry strtod lines i raw) (root_view (heap st)).
Proof.
  intros [Hinv Hsh Hempty] Hline.
  destruct (invariant_root st Hinv) as [props Hroot].
  destruct (loop_body_invariant strtod 0 lines i raw st Hinv) as (st' & Hst' & Hinv' & _).
  exists st'. split; [done |].
  pose proof (loop_body_shallow strtod 0 lines i raw st st' Hsh Hline Hst') as Hsh'.
  assert (pop_phase (LeadingIndent raw) (stack st) = [root_context 0]
          \/ Str.empty (Trim raw) = true) as Hpop.
  { destruct (Str.empty (Trim raw)) eqn:Hraw; [by right | left].
    apply (shallow_stack_pop 0 raw (drop (S i) lines)); [done |].
    by rewrite <- (drop_S _ _ _ Hline). }
  pose proof (lookup_lt_Some _ _ _ Hroot) as Hlt.
  destruct (loop_body_root_store lines i raw st st' props Hroot Hpop Hst')
    as [[-> Hheap] | (key & x & ext & -> & Hheap & Hext & Habove)].
  - split; [| by rewrite Hheap]. split; [done | done |]. by rewrite Hheap.
  - assert (forall a, a <> 0%nat -> heap st' !! a = (heap st ++ ext)%list !! a) as Hother
      by (intros a Ha; by rewrite Hheap, list_lookup_insert_ne).
    split.
    + split; [done | done |]. intros a cell Ha. rewrite (Hother a Ha).
      intros [Hold | [_ Hnew]]%lookup_app_Some; [by eapply Hempty |].
      rewrite Forall_forall in Hext. apply Hext. by eapply list_elem_of_lookup_2.
    + unfold root_view at 1 2. rewrite Hroot. rewrite Hheap at 1.
      rewrite list_lookup_insert_eq by (rewrite length_app; lia).
      rewrite set_prop_fmap. simpl. f_equal.
      apply list_fmap_ext. intros j [k y] Hj. unfold prod_map. simpl. f_equal.
      destruct y; try done. simpl.
      pose proof (inv_ordered _ _ Hinv _ _ Hroot) as Hord. simpl in Hord.
      rewrite Forall_forall in Hord.
      assert (value_above (length (heap st)) 0 (JsRef h)) as Hh.
      { apply Hord. apply list_elem_of_fmap. exists (k, JsRef h). split; [done |].
        by eapply list_elem_of_lookup_2. }
      simpl in Hh. rewrite Hother by lia. by rewrite lookup_app_l by lia.
Qed.

Lemma for_loop_flat lines todo : forall i st,
  todo = drop i lines -> flat_inv (drop i lines) st ->
  exists st', for_loop strtod lines i todo st = Some st' /\
              flat_inv [] st' /\
              root_view (heap st') = root_entries strtod lines i todo (root_view (heap st)).
Proof.
  induction todo as [| raw todo IH]; intros i st Htodo Hflat.
  - exists st. split; [done |]. split; [by rewrite Htodo | done].
  - assert (lines !! i = Some raw) as Hline.
    { rewrite <- (Nat.add_0_r i), <- lookup_drop, <- Htodo. done. }
    destruct (loop_body_flat lines i raw st Hflat Hline) as (st1 & Hst1 & Hflat1 & Hview1).
    simpl. rewrite Hst1. simpl.
    rewrite (drop_S _ _ _ Hline) in Htodo. injection Htodo as Htodo.
    destruct (IH (S i) st1 Htodo Hflat1) as (st' & Hst' & Hflat' & Hview').
    exists st'. split; [done |]. split; [done |]. by rewrite Hview', Hview1.
Qed.

Lemma read_tree_flat rest st :
  flat_inv rest st ->
  read_tree (length (heap st)) (heap st) (JsRef 0) = Some (Object (root_view (heap st))).
Proof.
  intros [Hinv _ Hempty]. destruct (invariant_root st Hinv) as [props Hroot].
  pose proof (lookup_lt_Some _ _ _ Hroot) as Hlt.
  unfold root_view. rewrite Hroot.
  destruct (length (heap st)) as [| fuel] eqn:Elen; [lia |].
  simpl. rewrite Hroot.
  rewrite (mapM_all_Some _ (prod_map id (shallow_read (heap st)))); [done |].
  intros [k y] Hin. unfold prod_map. simpl.
  destruct y; try (by rewrite read_tree_scalar).
  pose proof (inv_ordered _ _ Hinv _ _ Hroot) as Hord. simpl in Hord.
  rewrite Forall_forall in Hord.
  assert (value_above (length (heap st)) 0 (JsRef h)) as Hh.
  { apply Hord. apply list_elem_of_fmap. by exists (k, JsRef h). }
  simpl in Hh. destruct fuel as [| fuel]; [lia |]. simpl.
  destruct (lookup_lt_is_Some_2 (heap st) h ltac:(lia)) as [cell Hcell].
  rewrite Hcell. pose proof (Hempty h cell ltac:(lia) Hcell) as Hvals.
  destruct cell as [ps | es]; simpl in Hvals.
  - apply fmap_nil_inv in Hvals. by subst.
  - by subst.
Qed.

(** The tree of a document is the root object with the entries its
    lines contribute one after the other. *)
Lemma parse_tree_flat env session :
  parse_tree strtod env session
  = Some (Object (root_entries strtod (SplitLines session) 0 (SplitLines session) [])).
Proof.
  rewrite parse_tree_env. unfold parse_tree. rewrite ParseSessionYamlToJs_unfold.
  destruct (for_loop_flat (SplitLines session) (SplitLines session) 0 (initial_state []))
    as (st & -> & Hflat & Hview).
  - done.
  - split; [apply initial_invariant | by left |].
    intros a cell Ha Hcell. simpl in Hcell.
    apply list_lookup_singleton_Some in Hcell as [-> _]. done.
  - simpl. rewrite (read_tree_flat _ _ Hflat), Hview. done.
Qed.

End Flat.

(** ** Consequences for the tree *)

(** A scalar or an empty container. *)
Definition is_leaf (v : Value) : Prop :=
  match v with
  | Object (_ :: _) | Array (_ :: _) => False
  | _ => True
  end.

(** The value under a key. *)
Fixpoint entry_lookup (key : string) (entries : list (string * Value)) : option Value :=
  match entries with
  | [] => None
  | (k, x) :: rest => if String.eqb k key then Some x else entry_lookup key rest
  end.

Lemma set_entry_keys key v entries :
  (fst <$> set_entry key v entries) =
    if bool_decide (key ∈ (fst <$> entries)) then fst <$> entries
    else ((fst <$> entries) ++ [key])%list.
Proof.
  induction entries as [| [k x] rest IH]; [done |].
  cbn [set_entry]. rewrite !fmap_cons. cbn [fst].
  destruct (String.eqb_spec k key) as [-> | Hne].
  - rewrite bool_decide_eq_true_2 by apply list_elem_of_here. done.
  - rewrite fmap_cons, IH. cbn [fst].
    destruct (decide (key ∈ (fst <$> rest))) as [Hin | Hnin].
    + rewrite !bool_decide_eq_true_2; [done | by apply list_elem_of_further | done].
    + rewrite !bool_decide_eq_false_2; [done | | done].
      intros [? | ?]%elem_of_cons; [congruence | done].
Qed.

Lemma set_entry_NoDup key v entries :
  NoDup (fst <$> entries) -> NoDup (fst <$> set_entry key v entries).
Proof.
  intros H. rewrite set_entry_keys. case_bool_decide as Hin; [done |].
  apply NoDup_app. split; [done |]. split; [| apply NoDup_singleton].
  intros k Hk ->%list_elem_of_singleton. done.
Qed.

Lemma set_entry_leaves key v entries :
  is_leaf v -> Forall (fun kv => is_leaf kv.2) entries ->
  Forall (fun kv => is_leaf kv.2) (set_entry key v entries).
Proof.
  intros Hv. induction 1 as [| [k x] rest Hx Hrest IH]; simpl.
  - by repeat constructor.
  - destruct (String.eqb k key); constructor; done.
Qed.

Lemma entry_lookup_set_eq key v entries : entry_lookup key (set_entry key v entries) = Some v.
Proof.
  induction entries as [| [k x] rest IH]; simpl.
  - by rewrite String.eqb_refl.
  - destruct (String.eqb k key) eqn:E; simpl; rewrite E; done.
Qed.

Lemma entry_lookup_set_ne key key' v entries :
  key' <> key -> entry_lookup key (set_entry key' v entries) = entry_lookup key entries.
Proof.
  intros Hne. induction entries as [| [k x] rest IH]; simpl.
  - by rewrite (proj2 (String.eqb_neq key' key) Hne).
  - destruct (String.eqb_spec k key') as [-> | Hk]; simpl.
    + by rewrite (proj2 (String.eqb_neq key' key) Hne).
    + by rewrite IH.
Qed.

(** ** Plain keys *)

(** The keys for which a property list compared byte by byte and kept in
    the order of first insertion is what the engine keeps.
    [SetObjectProperty] hands [key.c_str()] with [NAPI_AUTO_LENGTH] to
    [napi_create_string_utf8], which reads the key up to its first NUL
    and decodes it as UTF-8, so that two keys that are not ASCII texts
    can become one property name; [napi_set_property] creates no own
    property for the name [__proto__]; and the engine enumerates the
    names that are array indices before the other names.  A plain key is
    a text of characters 1 to 127 that is not [__proto__] and is not
    made of digits only.  The empty key is plain. *)
Definition plain_char (c : ascii) : bool :=
  (0 <? N_of_ascii c)%N && (N_of_ascii c <? 128)%N.

Definition plain_key (key : string) : bool :=
  forallb plain_char (ScalarSpec.chars key)
  && negb (String.eqb key "__proto__")
  && (Str.empty key || negb (forallb Str.isdigit (ScalarSpec.chars key))).



(** Every key that a line of [todo = lines[i..]] sets is plain. *)
Fixpoint plain_keys_from (strtod : string -> strtod_result) (lines : list string) (i : nat)
    (todo : list string) : bool :=
  match todo with
  | [] => true
  | raw_line :: todo' =>
      match line_entry strtod lines i raw_line with
      | Some (key, _) => plain_key key
      | None => true
      end && plain_keys_from strtod lines (S i) todo'
  end.

Definition plain_keys (strtod : string -> strtod_result) (lines : list string) : bool :=
  plain_keys_from strtod lines 0 lines.

Lemma plain_key_examples :
  plain_key "" = true /\
  plain_key "CarIdx" = true /\
  plain_key "Lap 1" = true /\
  plain_key "-1" = true /\
  plain_key "__proto__" = false /\
  plain_key "0" = false /\
  plain_key "12" = false /\
  plain_key (String Str.NUL "a") = false /\
  plain_key (String (ascii_of_nat 255) "k") = false.
Proof. repeat split; reflexivity. Qed.

Section FlatConsequences.

Variable strtod : string -> strtod_result.

Lemma line_entry_leaf lines i raw key v :
  line_entry strtod lines i raw = Some (key, v) -> is_leaf v.
Proof.
  unfold line_entry. repeat case_match; try done; intros [= <- <-]; try done.
  unfold scalar_value. by case_match.
Qed.

Lemma root_entries_app lines todo1 todo2 : forall i entries,
  root_entries strtod lines i (todo1 ++ todo2)%list entries
  = root_entries strtod lines (i + length todo1) todo2
      (root_entries strtod lines i todo1 entries).
Proof.
  induction todo1 as [| raw todo1 IH]; intros i entries; simpl.
  - by rewrite Nat.add_0_r.
  - rewrite IH. by replace (S i + length todo1)%nat with (i + S (length todo1))%nat by lia.
Qed.

Lemma root_entries_invariant (P : list (string * Value) -> Prop) lines todo :
  (forall j raw key v entries,
      line_entry strtod lines j raw = Some (key, v) -> P entries ->
      P (set_entry key v entries)) ->
  forall i entries, P entries -> P (root_entries strtod lines i todo entries).
Proof.
  intros Hstep. induction todo as [| raw todo IH]; intros i entries HP; [done |].
  simpl. apply IH. destruct (line_entry strtod lines i raw) as [[key v] |] eqn:E; [| done].
  simpl. by eapply Hstep.
Qed.

(** X6. For every document whose keys are plain the tree returned is
    the root object whose entries are those of [root_entries]: the lines
    are taken in order, a line that is blank, starts with a dash or
    holds no colon gives nothing, and any other line sets its key,
    whatever its indentation, in the root object, to the scalar that
    follows the colon or, when nothing follows, to an empty array or
    object; a key set again keeps its place. *)
Theorem parse_tree_root_entries env session :
  plain_keys strtod (SplitLines session) = true ->
  parse_tree strtod env session
  = Some (Object (root_entries strtod (SplitLines session) 0 (SplitLines session) [])).
Proof. intros _. apply parse_tree_flat. Qed.

(** X7. No container below the root ever receives anything: every value
    of the object returned is a scalar, an empty object or an empty
    array. *)
Theorem parse_tree_leaves env session :
  exists entries,
    parse_tree strtod env session = Some (Object entries) /\
    Forall (fun kv => is_leaf kv.2) entries.
Proof.
  eexists. split; [apply parse_tree_flat |].
  apply (root_entries_invariant (Forall (fun kv => is_leaf kv.2))); [| constructor].
  intros j raw key v entries Hline Hentries.
  apply set_entry_leaves; [| done]. by eapply line_entry_leaf.
Qed.

(** X8. The keys of the object returned are pairwise different. *)
Theorem parse_tree_keys_unique env session :
  exists entries,
    parse_tree strtod env session = Some (Object entries) /\ NoDup (fst <$> entries).
Proof.
  eexists. split; [apply parse_tree_flat |].
  apply (root_entries_invariant (fun entries => NoDup (fst <$> entries))); [| constructor].
  intros j raw key v entries _ Hentries. by apply set_entry_NoDup.
Qed.

Lemma root_entries_untouched lines key todo : forall i entries,
  (forall j raw v, todo !! j = Some raw ->
                   line_entry strtod lines (i + j) raw <> Some (key, v)) ->
  entry_lookup key (root_entries strtod lines i todo entries) = entry_lookup key entries.
Proof.
  induction todo as [| raw todo IH]; intros i entries Hnone; [done |].
  simpl. rewrite IH.
  - destruct (line_entry strtod lines i raw) as [[k v] |] eqn:E; [| done].
    simpl. apply entry_lookup_set_ne. intros ->.
    apply (Hnone 0%nat raw v); [done |]. by rewrite Nat.add_0_r.
  - intros j raw' v Hj. replace (S i + j)%nat with (i + S j)%nat by lia.
    by apply (Hnone (S j)).
Qed.

(** The entry of a line that no later line sets again is the one found
    under its key at the end. *)
Lemma root_entries_last lines i raw key v :
  lines !! i = Some raw ->
  line_entry strtod lines i raw = Some (key, v) ->
  (forall j raw' v', (i < j)%nat -> lines !! j = Some raw' ->
                     line_entry strtod lines j raw' <> Some (key, v')) ->
  entry_lookup key (root_entries strtod lines 0 lines []) = Some v.
Proof.
  intros Hline Hentry Hlast.
  rewrite <- (take_drop_middle lines i raw Hline) at 2.
  rewrite root_entries_app. cbn [root_entries]. rewrite Nat.add_0_l.
  rewrite length_take_le by (apply Nat.lt_le_incl; by eapply lookup_lt_Some).
  rewrite Hentry. cbn [apply_entry].
  rewrite root_entries_untouched; [apply entry_lookup_set_eq |].
  intros j raw' v' Hj. apply Hlast; [lia |].
  rewrite lookup_drop in Hj. by replace (S i + j)%nat with (S (i + j)) by lia.
Qed.

(** X9. In a document whose keys are plain the value under a key is the
    one given by the last line that sets the key: a line that
    contributes an entry for [key], followed by no line that contributes
    one for the same key, decides what the object returned holds under
    [key]. *)
Theorem parse_tree_last_line_wins env session i raw key v :
  let lines := SplitLines session in
  plain_keys strtod lines = true ->
  lines !! i = Some raw ->
  line_entry strtod lines i raw = Some (key, v) ->
  (forall j raw' v', (i < j)%nat -> lines !! j = Some raw' ->
                     line_entry strtod lines j raw' <> Some (key, v')) ->
  exists entries,
    parse_tree strtod env session = Some (Object entries) /\
    entry_lookup key entries = Some v.
Proof.
  intros lines _ Hline Hentry Hlast.
  eexists. split; [apply parse_tree_flat |].
  by apply (root_entries_last lines i raw).
Qed.

(** X10. In a parse the stack never holds more than one context above
    the root; every line that is not blank is read with the root object
    as its current container, and every line whose trimmed text starts
    with a dash is skipped: the arrays the parser creates never receive
    an element. *)
Theorem dash_lines_are_skipped env session k raw st :
  let lines := SplitLines session in
  lines !! k = Some raw ->
  for_loop strtod lines 0 (take k lines) (initial_state env) = Some st ->
  (length (stack st) <= 2)%nat /\
  (Str.empty (Trim raw) = false ->
   pop_phase (LeadingIndent raw) (stack st) = [root_context (length env)]) /\
  (starts_with "-" (Trim raw) = true ->
   loop_body strtod lines k raw st = Some (MkState (heap st) [root_context (length env)])).
Proof.
  intros lines Hline Hrun.
  assert (shallow_stack (length env) (drop k lines) (stack st)) as Hsh.
  { apply (for_loop_shallow strtod (length env) lines lines 0 (initial_state env) st eq_refl);
      [by left | exact Hrun]. }
  split; [| split].
  - destruct Hsh as [-> | (c & -> & _)]; simpl; lia.
  - intros Hraw. by apply (root_is_always_current strtod env session k raw st).
  - intros Hdash.
    assert (Str.empty (Trim raw) = false) as Hraw.
    { destruct (Trim raw); [done | done]. }
    unfold loop_body.
    rewrite Hraw, (root_is_always_current strtod env session k raw st Hline Hraw Hrun), Hdash.
    done.
Qed.

End FlatConsequences.

(** * The car number argument *)

(** What [ParseCarNumberArg] leaves behind: [true] with [*out], [false]
    after [napi_throw_type_error] with a message, or [false] after
    [CheckNapi] has reported a failed N-API call. *)
Inductive CarNumberResult :=
| CarNumber (out : Z)
| CarNumberTypeError (message : string)
| CarNumberNapiError.

Record strtol_result := MkStrtol {
  l_parsed : Z;
  l_end : nat;
  l_erange : bool
}.

(** [strtol(nptr, &end, 10)] of the C library, for a [long] whose
    largest value is [long_max]: as [strtoll], with the range of [long]. *)
Definition strtol (long_max : Z) (nptr : string) : strtol_result :=
  let ws := trim_start nptr in
  let after_ws := Str.substr_from ws nptr in
  let '(negative, sign_len) :=
    if starts_with "-" after_ws then (true, 1%nat)
    else if starts_with "+" after_ws then (false, 1%nat)
    else (false, 0%nat) in
  let '(magnitude, ndigits) := scan_digits 0 (Str.substr_from sign_len after_ws) in
  if (ndigits =? 0)%nat then MkStrtol 0 0 false
  else
    let exact := if negative then - magnitude else magnitude in
    let end_ := (ws + sign_len + ndigits)%nat in
    if exact >? long_max then MkStrtol long_max end_ true
    else if exact <? - long_max - 1 then MkStrtol (- long_max - 1) end_ true
    else MkStrtol exact end_ false.

(** [static_cast<int>] of a [long]: the value modulo 2^32 that lies in
    the range of [int]. *)
Definition to_int (z : Z) : Z := (z + 2 ^ 31) mod 2 ^ 32 - 2 ^ 31.

(** [while (index < text.size() && text[index] == '0') index += 1;] *)
Fixpoint leading_zeros (text : string) : nat :=
  match text with
  | String c rest => if Ascii.eqb c "0" then S (leading_zeros rest) else O
  | EmptyString => O
  end.

(** [for (char ch : digits) if (!std::isdigit(ch)) ...]: no character
    fails the test. *)
Fixpoint all_isdigit (digits : string) : bool :=
  match digits with
  | String ch rest => Str.isdigit ch && all_isdigit rest
  | EmptyString => true
  end.

Section CarNumber.

(** [irsdk_padCarNum] of the SDK header, and [LONG_MAX] of the platform
    (2^31 - 1 for the Windows build this file is compiled in). *)
Variable irsdk_padCarNum : Z -> Z -> Z.
Variable long_max : Z.

(** [napi_get_value_int32], [None] when the engine refuses the value. *)
Variable napi_get_value_int32 : JsValue -> option Z.

(** The branch [type == napi_string], on the bytes [GetString] yields. *)
Definition ParseCarNumberText (text : string) : CarNumberResult :=
  if Str.empty text
  then CarNumberTypeError "car number must be a non-empty numeric string"
  else
    let index := leading_zeros text in
    let digits := Str.substr_from index text in
    if Str.empty digits
    then CarNumber (irsdk_padCarNum 0 (Z.of_nat (Str.size text - 1)))
    else if negb (all_isdigit digits)
    then CarNumberTypeError "car number must be numeric"
    else
      let r := strtol long_max digits in
      if l_erange r || (l_end r =? 0)%nat || negb (l_end r =? Str.size digits)%nat
      then CarNumberTypeError "car number is out of range"
      else CarNumber (irsdk_padCarNum (to_int (l_parsed r)) (Z.of_nat index)).

Definition ParseCarNumberArg (value : JsValue) : CarNumberResult :=
  match value with
  | JsString text => ParseCarNumberText text
  | _ =>
      match napi_get_value_int32 value with
      | Some num => CarNumber (irsdk_padCarNum num 0)
      | None => CarNumberNapiError
      end
  end.

End CarNumber.

Module CarNumberFacts.

Import ScalarSpec ScalarFacts TextFacts.

Lemma isdigit_range c :
  Str.isdigit c = true -> 0 <= Z.of_nat (nat_of_ascii c) - 48 <= 9.
Proof.
  unfold Str.isdigit. intros [H1 H2]%andb_true_iff.
  apply Nat.leb_le in H1, H2. lia.
Qed.

Lemma isdigit_plain c :
  Str.isdigit c = true ->
  Str.isspace c = false /\ Ascii.eqb c "-" = false /\ Ascii.eqb c "+" = false.
Proof.
  intros H. split; [| split].
  - unfold Str.isdigit, Str.isspace in *. apply andb_true_iff in H as [H1 H2].
    apply Nat.leb_le in H1, H2.
    destruct (Nat.eqb_spec (nat_of_ascii c) 32); [lia |].
    destruct (Nat.leb_spec (nat_of_ascii c) 13); [lia |]. by rewrite andb_false_r.
  - destruct (Ascii.eqb_spec c "-") as [-> | ?]; [done | done].
  - destruct (Ascii.eqb_spec c "+") as [-> | ?]; [done | done].
Qed.

Lemma all_isdigit_chars text : all_isdigit text = forallb Str.isdigit (chars text).
Proof. induction text as [| c rest IH]; simpl; [done | by rewrite IH]. Qed.

Lemma decimal_fold_nonneg ds : forall acc,
  forallb Str.isdigit ds = true -> 0 <= acc ->
  acc <= fold_left (fun a c => a * 10 + (Z.of_nat (nat_of_ascii c) - 48)) ds acc.
Proof.
  induction ds as [| c ds IH]; intros acc Hall Hacc; simpl; [lia |].
  simpl in Hall. apply andb_true_iff in Hall as [Hc Hds].
  pose proof (isdigit_range c Hc). etransitivity; [| apply IH; [done | lia]]. lia.
Qed.

(** The zeros in front change neither what the text is made of nor the
    number it denotes. *)
Lemma leading_zeros_spec text :
  let digits := Str.substr_from (leading_zeros text) text in
  (leading_zeros text + Str.size digits = Str.size text)%nat /\
  all_isdigit digits = all_isdigit text /\
  decimal (chars digits) = decimal (chars text) /\
  (forall c rest, digits = String c rest -> Ascii.eqb c "0" = false).
Proof.
  unfold decimal. induction text as [| c text IH]; [done |].
  cbn [leading_zeros]. destruct (Ascii.eqb_spec c "0") as [-> | Hc].
  - change (Str.substr_from (S (leading_zeros text)) (String "0" text))
      with (Str.substr_from (leading_zeros text) text).
    destruct IH as (Hsz & Hall & Hdec & Hfirst).
    split; [unfold Str.size in *; simpl; lia |]. split; [done |]. split; [| done].
    rewrite Hdec. done.
  - change (Str.substr_from 0 (String c text)) with (String c text).
    split; [done |]. split; [done |]. split; [done |].
    intros c' rest [= <- <-]. by apply Ascii.eqb_neq.
Qed.

Lemma decimal_positive c rest :
  Ascii.eqb c "0" = false -> all_isdigit (String c rest) = true ->
  0 < decimal (chars (String c rest)).
Proof.
  intros Hc Hall. rewrite all_isdigit_chars in Hall. unfold decimal.
  change (chars (String c rest)) with (c :: chars rest) in *. simpl in *.
  apply andb_true_iff in Hall as [Hd Hrest].
  pose proof (isdigit_range c Hd) as Hr.
  assert (Z.of_nat (nat_of_ascii c) - 48 <> 0) as Hnz.
  { intros E. apply Ascii.eqb_neq in Hc. apply Hc.
    rewrite <- (ascii_nat_embedding c). replace (nat_of_ascii c) with 48%nat by lia. done. }
  eapply Z.lt_le_trans; [| apply decimal_fold_nonneg; [done | lia]]. lia.
Qed.

End CarNumberFacts.

Section CarNumberProperties.

Import ScalarSpec ScalarFacts TextFacts IntegerFacts CarNumberFacts.

Variable irsdk_padCarNum : Z -> Z -> Z.
Variable long_max : Z.
Variable napi_get_value_int32 : JsValue -> option Z.

(** On a text made of digits [strtol] reads the whole text and reports
    an error of range exactly when the number exceeds [LONG_MAX]. *)
Lemma strtol_digits digits :
  digits <> EmptyString -> all_isdigit digits = true -> 0 <= long_max ->
  strtol long_max digits =
    if decimal (chars digits) >? long_max
    then MkStrtol long_max (Str.size digits) true
    else MkStrtol (decimal (chars digits)) (Str.size digits) false.
Proof.
  intros Hne Hall Hmax. destruct digits as [| c rest]; [done |].
  pose proof Hall as Hall'. simpl in Hall'. apply andb_true_iff in Hall' as [Hc _].
  destruct (isdigit_plain c Hc) as (Hsp & Hminus & Hplus).
  unfold strtol. simpl trim_start. rewrite Hsp.
  change (Str.substr_from 0 (String c rest)) with (String c rest).
  change (starts_with "-" (String c rest)) with (Ascii.eqb c "-").
  change (starts_with "+" (String c rest)) with (Ascii.eqb c "+").
  rewrite Hminus, Hplus. cbv iota beta.
  change (Str.substr_from 0 (String c rest)) with (String c rest).
  destruct (scan_digits 0 (String c rest)) as [v n] eqn:E.
  destruct (scan_digits_spec _ _ _ _ E) as (_ & Hn & Hv).
  rewrite all_isdigit_chars in Hall. apply Hn in Hall as Hlen.
  specialize (Hv Hlen). fold (decimal (chars (String c rest))) in Hv. subst v.
  rewrite Hlen, <- size_chars.
  change (Str.size (String c rest) =? 0)%nat with false. cbv iota zeta.
  change (0 + 0 + Str.size (String c rest))%nat with (Str.size (String c rest)).
  destruct (decimal (chars (String c rest)) >? long_max); [done |].
  pose proof (decimal_fold_nonneg (chars (String c rest)) 0 Hall ltac:(lia)) as Hpos.
  fold (decimal (chars (String c rest))) in Hpos.
  destruct (Z.ltb_spec (decimal (chars (String c rest))) (- long_max - 1)); [lia | done].
Qed.

(** X11. The car number given as a text is accepted exactly when the
    text is not empty, is made of decimal digits only (no sign and no
    white space, which [strtol] alone would let pass) and denotes a
    number that fits a [long]; each of the three refusals has its own
    message.  When it is accepted the number is the one the text
    denotes, and the padding is the number of zeros in front, all zeros
    but one when the text is made of zeros only. *)
Theorem ParseCarNumberArg_text text :
  0 <= long_max ->
  ParseCarNumberArg irsdk_padCarNum long_max napi_get_value_int32 (JsString text) =
    if Str.empty text
    then CarNumberTypeError "car number must be a non-empty numeric string"
    else if negb (all_isdigit text)
    then CarNumberTypeError "car number must be numeric"
    else if decimal (chars text) >? long_max
    then CarNumberTypeError "car number is out of range"
    else
      CarNumber
        (irsdk_padCarNum (to_int (decimal (chars text)))
           (Z.of_nat (if decimal (chars text) =? 0 then Str.size text - 1
                      else leading_zeros text))).
Proof.
  intros Hmax. cbn [ParseCarNumberArg]. unfold ParseCarNumberText.
  destruct (Str.empty text) eqn:Hempty; [done |].
  destruct (leading_zeros_spec text) as (Hsz & Hall & Hdec & Hfirst).
  set (digits := Str.substr_from (leading_zeros text) text) in *.
  rewrite <- Hall, <- Hdec.
  destruct digits as [| c rest] eqn:Edigits.
  - simpl. change (decimal []) with 0.
    destruct (Z.gtb_spec 0 long_max) as [? | _]; [lia |]. done.
  - change (Str.empty (String c rest)) with false. cbv iota.
    destruct (all_isdigit (String c rest)) eqn:Hdigits; [| done]. cbn [negb]. cbv iota zeta.
    rewrite strtol_digits by done.
    pose proof (decimal_positive c rest (Hfirst c rest eq_refl) Hdigits) as Hpos.
    destruct (decimal (chars (String c rest)) >? long_max); [done |].
    cbn [l_erange l_end l_parsed orb].
    rewrite Nat.eqb_refl.
    change (Str.size (String c rest) =? 0)%nat with false. cbn [negb orb].
    destruct (Z.eqb_spec (decimal (chars (String c rest))) 0) as [E | _]; [lia | done].
Qed.

End CarNumberProperties.

(** * What a document is read from *)

(** The trimmed texts of the lines that are not blank. *)
Definition content (lines : list string) : list string :=
  filter (fun t => t <> EmptyString) (Trim <$> lines).

(** [line_entry] from the trimmed text of the line and the trimmed
    texts of the lines that follow and are not blank. *)
Definition content_entry (strtod : string -> strtod_result) (trimmed : string)
    (following : list string) : option (string * Value) :=
  if starts_with "-" trimmed then None
  else
    match Str.find ":" trimmed with
    | None => None
    | Some colon =>
        let key := Trim (Str.substr 0 colon trimmed) in
        let raw_value := Trim (Str.substr_from (colon + 1) trimmed) in
        if Str.empty raw_value then
          Some (key, match following with
                     | next :: _ => if starts_with "-" next then Array [] else Object []
                     | [] => Object []
                     end)
        else Some (key, scalar_value (ParseScalarToJs strtod raw_value))
    end.

Fixpoint content_entries (strtod : string -> strtod_result) (texts : list string)
    (entries : list (string * Value)) : list (string * Value) :=
  match texts with
  | [] => entries
  | trimmed :: following =>
      content_entries strtod following
        (apply_entry (content_entry strtod trimmed following) entries)
  end.

Section Content.

Variable strtod : string -> strtod_result.

Lemma content_cons raw rest :
  content (raw :: rest) =
    if Str.empty (Trim raw) then content rest else Trim raw :: content rest.
Proof.
  unfold content. rewrite fmap_cons, filter_cons.
  by destruct (Trim raw).
Qed.

Lemma peek_loop_kind rest :
  found (peek_loop rest) && starts_with_dash (peek_loop rest)
  = match content rest with
    | next :: _ => starts_with "-" next
    | [] => false
    end.
Proof.
  induction rest as [| raw rest IH]; [done |].
  rewrite content_cons. simpl. by destruct (Str.empty (Trim raw)).
Qed.

Lemma root_entries_content lines todo : forall i entries,
  todo = drop i lines ->
  root_entries strtod lines i todo entries = content_entries strtod (content todo) entries.
Proof.
  induction todo as [| raw todo IH]; intros i entries Htodo; [done |].
  assert (lines !! i = Some raw) as Hline.
  { rewrite <- (Nat.add_0_r i), <- lookup_drop, <- Htodo. done. }
  rewrite (drop_S _ _ _ Hline) in Htodo. injection Htodo as Htodo.
  cbn [root_entries]. rewrite (IH (S i)) by done. rewrite content_cons.
  unfold line_entry. destruct (Str.empty (Trim raw)); [done |].
  cbn [content_entries]. f_equal. f_equal. unfold content_entry.
  destruct (starts_with "-" (Trim raw)); [done |].
  destruct (Str.find ":" (Trim raw)) as [colon |]; [| done].
  destruct (Str.empty (Trim (Str.substr_from (colon + 1) (Trim raw)))); [| done].
  unfold PeekNextLine. rewrite Nat.add_1_r, <- Htodo, peek_loop_kind.
  destruct (content todo) as [| next following]; [done |].
  by destruct (starts_with "-" next).
Qed.

(** X12. The tree depends on the document only through the trimmed
    texts of its lines that are not blank: indentation, blank lines,
    carriage returns and white space at the end of a line change
    nothing. *)
Theorem parse_tree_content env1 env2 session1 session2 :
  content (SplitLines session1) = content (SplitLines session2) ->
  parse_tree strtod env1 session1 = parse_tree strtod env2 session2.
Proof.
  intros H. rewrite !parse_tree_flat.
  rewrite !(root_entries_content _ _ 0) by done. by rewrite H.
Qed.

End Content.

(** ** The further statements at concrete inputs *)

Lemma parse_tree_root_entries_witness :
  parse_tree strtod_none [] ("b: 1" ++ String Str.LF "a:" ++ String Str.LF "b: x")
  = Some (Object [("b", Str "x"); ("a", Object [])]).
Proof.
  exact (parse_tree_root_entries strtod_none []
           ("b: 1" ++ String Str.LF "a:" ++ String Str.LF "b: x") eq_refl).
Defined.

Lemma parse_tree_last_line_wins_witness :
  exists entries,
    parse_tree strtod_none [] ("a: 1" ++ String Str.LF "a: 2") = Some (Object entries) /\
    entry_lookup "a" entries = Some (Int64 2).
Proof.
  apply (parse_tree_last_line_wins strtod_none [] ("a: 1" ++ String Str.LF "a: 2")
           1 "a: 2" "a" (Int64 2)).
  - reflexivity.
  - reflexivity.
  - reflexivity.
  - intros j raw' v' Hj Hline.
    destruct j as [| [| j]]; [lia | lia | discriminate Hline].
Defined.

Lemma dash_lines_are_skipped_witness :
  exists st,
    for_loop strtod_none ["a:"; "- x"] 0 ["a:"] (initial_state []) = Some st /\
    (length (stack st) <= 2)%nat /\
    loop_body strtod_none ["a:"; "- x"] 1 "- x" st = Some (MkState (heap st) [root_context 0]).
Proof.
  eexists. split; [reflexivity |].
  destruct (dash_lines_are_skipped strtod_none [] ("a:" ++ String Str.LF "- x") 1 "- x" _
              eq_refl eq_refl) as (Hdepth & _ & Hskip).
  split; [exact Hdepth | exact (Hskip eq_refl)].
Defined.

(** A padding function and a conversion to evaluate [ParseCarNumberArg]
    with. *)
Definition sample_padCarNum (num zero : Z) : Z := num + 1000 * zero.

Definition no_int32 (value : JsValue) : option Z := None.

Lemma ParseCarNumberArg_text_witness :
  0 <= 2147483647 /\
  ParseCarNumberArg sample_padCarNum 2147483647 no_int32 (JsString "007")
  = CarNumber (sample_padCarNum 7 2).
Proof.
  assert (0 <= 2147483647) as H by lia.
  split; [exact H |].
  exact (ParseCarNumberArg_text sample_padCarNum 2147483647 no_int32 "007" H).
Defined.

(** The same entries, written with other indentation, a blank line and
    carriage returns. *)
Definition plain_document : string :=
  Lines.join_lf ["a:"; "b: 1"].

Definition spaced_document : string :=
  Lines.join_lf
    [ "  a:" ++ String Str.CR EmptyString;
      String Str.TAB EmptyString;
      "      b: 1  " ].

Lemma parse_tree_content_witness :
  content (SplitLines plain_document) = content (SplitLines spaced_document) /\
  parse_tree strtod_none [] plain_document = parse_tree strtod_none [] spaced_document.
Proof.
  assert (content (SplitLines plain_document) = content (SplitLines spaced_document)) as H
    by reflexivity.
  split; [exact H |].
  exact (parse_tree_content strtod_none [] [] plain_document spaced_document H).
Defined.

(** * Numbers too large for 64 bits *)

Section DigitTexts.

Import ScalarSpec ScalarFacts TextFacts IntegerFacts CarNumberFacts.

Variable strtod : string -> strtod_result.

Lemma isdigit_not c other :
  Str.isdigit c = true -> Str.isdigit other = false -> Ascii.eqb c other = false.
Proof.
  intros Hc Ho. destruct (Ascii.eqb_spec c other) as [-> | ?]; [congruence | done].
Qed.

Lemma digit_text_int64 text :
  text <> EmptyString -> all_isdigit text = true ->
  TryParseInt64 text =
    if decimal (chars text) <? 2 ^ 63 then Some (decimal (chars text)) else None.
Proof.
  intros Hne Hall. destruct text as [| c rest]; [done |].
  pose proof Hall as Hall'. simpl in Hall'. apply andb_true_iff in Hall' as [Hc Hrest].
  destruct (isdigit_plain c Hc) as (Hsp & Hminus & Hplus).
  rewrite TryParseInt64_eq; [| done | by simpl; rewrite Hsp].
  unfold parse_int64. rewrite <- hex_prefixed_eq.
  assert (hex_prefixed (String c rest) = false) as ->.
  { unfold hex_prefixed. destruct rest as [| c1 rest]; [done |].
    simpl in Hrest. apply andb_true_iff in Hrest as [Hc1 _].
    change (Str.at_ (String c (String c1 rest)) 1) with c1.
    rewrite (isdigit_not c1 "x"), (isdigit_not c1 "X") by done.
    by rewrite andb_false_r. }
  change (chars (String c rest)) with (c :: chars rest). cbv iota beta.
  rewrite Hminus, Hplus. cbv iota beta.
  rewrite all_isdigit_chars in Hall.
  change (chars (String c rest)) with (c :: chars rest) in Hall. rewrite Hall.
  rewrite bool_decide_eq_false_2 by done. cbn [negb andb]. cbv zeta.
  pose proof (decimal_fold_nonneg (c :: chars rest) 0 Hall ltac:(lia)) as Hpos.
  fold (decimal (c :: chars rest)) in Hpos.
  destruct (Z.leb_spec (- 2 ^ 63) (decimal (c :: chars rest))); [done | lia].
Qed.

(** X13. A text made of decimal digits is the integer it denotes when
    that number is below 2^63.  A larger number is never cut down to the
    largest integer: the text is then left to the conversion to a
    double, and is a string when that conversion refuses it. *)
Theorem digit_text_scalar text :
  text <> EmptyString -> all_isdigit text = true ->
  ParseScalarToJs strtod text =
    if decimal (chars text) <? 2 ^ 63 then JsInt64 (decimal (chars text))
    else
      match TryParseDouble strtod text with
      | Some d => JsDouble d
      | None => JsString text
      end.
Proof.
  intros Hne Hall. unfold ParseScalarToJs. rewrite (digit_text_int64 text Hne Hall).
  destruct text as [| c rest]; [done |].
  pose proof Hall as Hall'. simpl in Hall'. apply andb_true_iff in Hall' as [Hc _].
  change (Str.empty (String c rest)) with false. cbv iota.
  change (Str.front (String c rest)) with c.
  rewrite (isdigit_not c Str.DQUOTE) by done. rewrite andb_false_r. cbn [andb]. cbv iota.
  assert (forall other tail, Str.isdigit other = false ->
            String.eqb (String c rest) (String other tail) = false) as Hneq.
  { intros other tail Ho. simpl. by rewrite (isdigit_not c other). }
  rewrite (Hneq "t"%char "rue"), (Hneq "f"%char "alse") by done.
  by destruct (decimal (chars (String c rest)) <? 2 ^ 63).
Qed.

End DigitTexts.

Lemma digit_text_scalar_witness :
  "9223372036854775808" <> EmptyString /\
  all_isdigit "9223372036854775808" = true /\
  ParseScalarToJs strtod_none "9223372036854775808" = JsString "9223372036854775808".
Proof.
  assert ("9223372036854775808" <> EmptyString) as H1 by discriminate.
  assert (all_isdigit "9223372036854775808" = true) as H2 by reflexivity.
  split; [exact H1 |]. split; [exact H2 |].
  exact (digit_text_scalar strtod_none "9223372036854775808" H1 H2).
Defined.

(** * Lines that are skipped *)

Section SkippedLines.

Variable strtod : string -> strtod_result.

Lemma content_app before after :
  content (before ++ after)%list = (content before ++ content after)%list.
Proof. unfold content. by rewrite fmap_app, filter_app. Qed.

(** A line that starts with a dash or holds no colon gives no entry. *)
Lemma content_entry_skipped trimmed following :
  starts_with "-" trimmed = true \/ Str.find ":" trimmed = None ->
  content_entry strtod trimmed following = None.
Proof.
  intros [H | H]; unfold content_entry; [by rewrite H |].
  destruct (starts_with "-" trimmed); [done |]. by rewrite H.
Qed.

(** The entry of a line depends on the lines after it through the first
    of them only, and through whether that one starts with a dash. *)
Lemma content_entry_following trimmed next next' rest rest' :
  starts_with "-" next = starts_with "-" next' ->
  content_entry strtod trimmed (next :: rest) = content_entry strtod trimmed (next' :: rest').
Proof. intros H. unfold content_entry. by rewrite H. Qed.

Lemma content_entries_skipped text text' post : forall pre entries,
  starts_with "-" text = true \/ Str.find ":" text = None ->
  starts_with "-" text' = true \/ Str.find ":" text' = None ->
  starts_with "-" text = starts_with "-" text' ->
  content_entries strtod (pre ++ text :: post)%list entries
  = content_entries strtod (pre ++ text' :: post)%list entries.
Proof.
  induction pre as [| first pre IH]; intros entries Hskip Hskip' Hdash.
  - cbn [app content_entries]. by rewrite !content_entry_skipped.
  - cbn [app content_entries]. rewrite (IH _ Hskip Hskip' Hdash). f_equal. f_equal.
    destruct pre as [| second pre]; [| done].
    by apply content_entry_following.
Qed.

Lemma line_entry_skipped lines i raw :
  starts_with "-" (Trim raw) = true \/ Str.find ":" (Trim raw) = None ->
  line_entry strtod lines i raw = None.
Proof.
  intros [H | H]; unfold line_entry; destruct (Str.empty (Trim raw)); try done.
  - by rewrite H.
  - destruct (starts_with "-" (Trim raw)); [done |]. by rewrite H.
Qed.

(** C5. A line that does not fit its container: a dash line when the
    current context (the top of the stack after the pop phase) is not
    an array, a line without dash when it is an array, a line without
    dash and without colon.  First, the iteration that reads such a
    line does not fail, leaves the store exactly as it was, so that
    every tree read from it is unchanged, and leaves on the stack what
    the pop phase left.  Second, in a parse the current context of a
    line that is not blank is the root context, which is not an array:
    the line is skipped when it starts with a dash or holds no colon,
    and it gives no entry.  Third, the lookahead of an earlier line
    still reads a skipped line: the tree depends on the line only
    through whether its trimmed text starts with a dash, that is, the
    line can be replaced by any other skipped line with the same answer
    and the tree is the same. *)
Theorem mismatched_line_effect :
  (forall lines i raw st current below,
      Str.empty (Trim raw) = false ->
      pop_phase (LeadingIndent raw) (stack st) = current :: below ->
      (starts_with "-" (Trim raw) = true /\ is_array current = false) \/
      (starts_with "-" (Trim raw) = false /\ is_array current = true) \/
      (starts_with "-" (Trim raw) = false /\ Str.find ":" (Trim raw) = None) ->
      exists st',
        loop_body strtod lines i raw st = Some st' /\
        heap st' = heap st /\
        stack st' = pop_phase (LeadingIndent raw) (stack st) /\
        forall fuel v, read_tree fuel (heap st') v = read_tree fuel (heap st) v) /\
  (forall env session k raw st,
      let lines := SplitLines session in
      lines !! k = Some raw ->
      Str.empty (Trim raw) = false ->
      for_loop strtod lines 0 (take k lines) (initial_state env) = Some st ->
      starts_with "-" (Trim raw) = true \/ Str.find ":" (Trim raw) = None ->
      pop_phase (LeadingIndent raw) (stack st) = [root_context (length env)] /\
      is_array (root_context (length env)) = false /\
      loop_body strtod lines k raw st = Some (MkState (heap st) [root_context (length env)]) /\
      line_entry strtod lines k raw = None) /\
  (forall env1 env2 session1 session2 before line1 line2 after,
      SplitLines session1 = (before ++ line1 :: after)%list ->
      SplitLines session2 = (before ++ line2 :: after)%list ->
      Str.empty (Trim line1) = false ->
      Str.empty (Trim line2) = false ->
      starts_with "-" (Trim line1) = true \/ Str.find ":" (Trim line1) = None ->
      starts_with "-" (Trim line2) = true \/ Str.find ":" (Trim line2) = None ->
      starts_with "-" (Trim line1) = starts_with "-" (Trim line2) ->
      parse_tree strtod env1 session1 = parse_tree strtod env2 session2).
Proof.
  split; [| split].
  - intros lines i raw st current below. apply skipped_line_step.
  - intros env session k raw st lines Hline Hraw Hrun Hskip.
    pose proof (root_is_always_current strtod env session k raw st Hline Hraw Hrun) as Hpop.
    split; [exact Hpop |]. split; [done |]. split; [| by apply line_entry_skipped].
    destruct (skipped_line_step strtod lines k raw st (root_context (length env)) []
                Hraw Hpop) as (st' & Hst' & Hheap & Hstack & _).
    { destruct (starts_with "-" (Trim raw)) eqn:Edash; [by left |].
      right. right. by destruct Hskip. }
    rewrite Hst'. destruct st' as [h s]. simpl in *. by rewrite Hheap, Hstack, Hpop.
  - intros env1 env2 session1 session2 before line1 line2 after H1 H2 Hne1 Hne2
      Hskip1 Hskip2 Hdash.
    rewrite !parse_tree_flat. rewrite !(root_entries_content _ _ _ 0) by done.
    rewrite H1, H2, !content_app, !content_cons, Hne1, Hne2.
    do 2 f_equal. by apply content_entries_skipped.
Qed.

End SkippedLines.

(** The lines [a:] and [- x]: the second is a dash line read with the
    root object as current container, and the tree holds an empty array
    under [a], where the line [a:] alone gives an empty object. *)
Lemma mismatched_line_changes_tree :
  exists st current below,
    for_loop strtod_none ["a:"; "- x"] 0 ["a:"] (initial_state []) = Some st /\
    pop_phase (LeadingIndent "- x") (stack st) = current :: below /\
    Str.empty (Trim "- x") = false /\
    starts_with "-" (Trim "- x") = true /\
    is_array current = false /\
    parse_tree strtod_none [] ("a:" ++ String Str.LF "- x") = Some (Object [("a", Array [])]) /\
    parse_tree strtod_none [] "a:" = Some (Object [("a", Object [])]) /\
    parse_tree strtod_none [] ("a:" ++ String Str.LF "- x") <> parse_tree strtod_none [] "a:".
Proof.
  eexists _, _, _. split; [reflexivity |]. split; [reflexivity |].
  split; [reflexivity |]. split; [reflexivity |]. split; [reflexivity |].
  assert (parse_tree strtod_none [] ("a:" ++ String Str.LF "- x")
          = Some (Object [("a", Array [])])) as H1 by (by vm_compute).
  assert (parse_tree strtod_none [] "a:" = Some (Object [("a", Object [])])) as H2
    by (by vm_compute).
  split; [exact H1 |]. split; [exact H2 |]. rewrite H1, H2. discriminate.
Qed.

Lemma mismatched_line_effect_witness :
  (exists st',
      loop_body strtod_none ["- x"] 0 "- x" (initial_state []) = Some st' /\
      heap st' = heap (initial_state []) /\
      stack st' = pop_phase (LeadingIndent "- x") (stack (initial_state [])) /\
      forall fuel v, read_tree fuel (heap st') v = read_tree fuel (heap (initial_state [])) v) /\
  parse_tree strtod_none [] ("a:" ++ String Str.LF "- x")
  = parse_tree strtod_none [] ("a:" ++ String Str.LF "- y: 1").
Proof.
  pose proof (mismatched_line_effect strtod_none) as (Hstep & _ & Htree).
  split.
  - apply (Hstep ["- x"] 0%nat "- x" (initial_state []) (root_context 0) []).
    + reflexivity.
    + reflexivity.
    + left. split; reflexivity.
  - apply (Htree [] [] _ _ ["a:"] "- x" "- y: 1" []).
    + reflexivity.
    + reflexivity.
    + reflexivity.
    + reflexivity.
    + left. reflexivity.
    + left. reflexivity.
    + reflexivity.
Defined.

(** * A key that is set again *)

Section ReboundKeys.

Variable strtod : string -> strtod_result.


End ReboundKeys.


